(** * WeaR-Synaptic: the replay engine, the log store read and the inspector buffers

    A shallow embedding of
    - [src/services/ReplayEngine.ts] (class [ReplayEngine]),
    - the database service layer ([getLogsBySession], [getLogCount], and the
      statements of [insertLog], [endSession], [deleteSession], [clearAllLogs]),
    - the inspector message buffers of the app store and of the inspector panel,
      and the message filter of the panel,
    - the expansion set of the log viewer and the string helpers of [lib/utils],
    followed by the properties of the specification that concern them and by
    further properties of the code.

    Conventions of the embedding.
    - A JavaScript [number] that holds a time, a speed or a progress fraction is
      an element of a type [num] with the interface [Number]: the engine is
      written once over it.  Two instances are given: exact rationals ([Qc]),
      in which the algebra of the scheduler is carried out, and IEEE binary64
      ([float]), which is what the program runs on.
    - A [number] that only ever counts (offsets, lengths, sizes) is a [nat].
    - [performance.now()] is an oracle [clock] read through a counter, so that
      every call of the source is one reading.
    - Callbacks ([onLog], [onStatusChange], [onProgress]) append to a trace.
    - An awaited store read completes before anything else runs; the read-ahead
      fetch started by [tick] is not awaited in the source and stays in flight
      until a separate [fetch_complete] step delivers it.
    - While an engine replays a session, the store does not change and answers
      every page read from one ordering of the session's rows. *)

From Stdlib Require Import ZArith QArith Qcanon Qround Floats Sorted Permutation Lia.
From stdpp Require Import base list strings numbers.
From stdpp Require sorting.

Set Default Proof Using "Type".

(* ================================================================== *)
(** * Part I: definitions *)
(* ================================================================== *)

(** ** JavaScript numbers *)

Class Number (num : Type) := {
  nzero : num;
  nunit : num;
  nadd : num -> num -> num;
  nsub : num -> num -> num;
  nmul : num -> num -> num;
  ndiv : num -> num -> num;
  nle : num -> num -> bool;      (* a <= b *)
  nlt : num -> num -> bool;      (* a < b; a > b is nlt b a *)
  of_count : nat -> num;         (* an integer count used as a number *)
  floor : num -> Z;              (* Math.floor *)
}.

Declare Scope js_scope.
Delimit Scope js_scope with js.
Notation "a + b" := (nadd a b) : js_scope.
Notation "a - b" := (nsub a b) : js_scope.
Notation "a * b" := (nmul a b) : js_scope.
Notation "a / b" := (ndiv a b) : js_scope.
Notation "a <=? b" := (nle a b) : js_scope.
Notation "a <? b" := (nlt a b) : js_scope.

(** Exact rationals. *)
#[export] Instance Qc_Number : Number Qc := {|
  nzero := 0%Qc;
  nunit := 1%Qc;
  nadd := Qcplus;
  nsub := Qcminus;
  nmul := Qcmult;
  ndiv := Qcdiv;
  nle := fun a b => Qle_bool (this a) (this b);
  nlt := fun a b => negb (Qle_bool (this b) (this a));
  of_count := fun n => Qc_of_Z (Z.of_nat n);
  floor := fun a => Qfloor (this a);
|}.

(** IEEE 754 binary64, the number type of the running program.  [floor] is
    read off the sign, mantissa and exponent of a finite number; a NaN or an
    infinity has no integer floor and is sent to 0 (no property below rests on
    that case).  Counts below 2^53 convert exactly. *)
Definition float_floor (f : float) : Z :=
  match Prim2SF f with
  | S754_finite s m e =>
      let v := if s then Z.neg m else Z.pos m in
      if (0 <=? e)%Z then Z.shiftl v e else Z.shiftr v (- e)
  | _ => 0%Z
  end.

#[export] Instance float_Number : Number float := {|
  nzero := PrimFloat.zero;
  nunit := PrimFloat.one;
  nadd := PrimFloat.add;
  nsub := PrimFloat.sub;
  nmul := PrimFloat.mul;
  ndiv := PrimFloat.div;
  nle := PrimFloat.leb;
  nlt := PrimFloat.ltb;
  of_count := fun n => PrimFloat.of_uint63 (Uint63.of_Z (Z.of_nat n));
  floor := float_floor;
|}.

(** ** Records of the database layer *)

Inductive Payload : Type :=
  | PText (s : string)       (* the JSON text as stored *)
  | PValue (s : string).     (* the value JSON.parse gives for that text *)

Record SystemLog {num : Type} := mkSystemLog {
  id : nat;
  session_id : string;
  timestamp : num;
  level : string;
  category : string;
  message : option string;
  payload : Payload;
  trace_id : option string;
  server_name : option string;
  direction : option string;
}.
Arguments SystemLog : clear implicits.
Arguments mkSystemLog {num}.

Module Db.
Section Db.
Context {num : Type} `{Number num}.

(** The table [system_logs]: rows in insertion order. *)
Definition Table := list (SystemLog num).

Definition in_session (sid : string) (r : SystemLog num) : bool :=
  bool_decide (session_id r = sid).

(** [ORDER BY timestamp ASC]: the rows come out pairwise ordered by
    timestamp; the query names no other column, so nothing more is fixed. *)
Definition by_timestamp (a b : SystemLog num) : Prop :=
  (timestamp a <=? timestamp b)%js = true.

Definition ordered_by_timestamp (rows sorted : list (SystemLog num)) : Prop :=
  Permutation rows sorted /\ StronglySorted by_timestamp sorted.

(** [LIMIT $2 OFFSET $3], for the non-negative integers that the engine
    passes. *)
Definition limit_offset (limit offset : nat) (rows : list (SystemLog num)) :=
  take limit (drop offset rows).

(** [typeof log.payload === "string" ? JSON.parse(log.payload) : log.payload] *)
Definition parse_payload (r : SystemLog num) : SystemLog num :=
  mkSystemLog (id r) (session_id r) (timestamp r) (level r) (category r)
    (message r)
    (match payload r with PText s => PValue s | PValue s => PValue s end)
    (trace_id r) (server_name r) (direction r).

(** [getLogsBySession(sessionId, limit, offset)] returns [result]. *)
Definition getLogsBySession (tbl : Table) (sessionId : string)
    (limit offset : nat) (result : list (SystemLog num)) : Prop :=
  exists sorted,
    ordered_by_timestamp (filter (fun r => in_session sessionId r = true) tbl) sorted /\
    result = map parse_payload (limit_offset limit offset sorted).

(** [getLogCount(sessionId)]: [SELECT COUNT( * ) ... WHERE session_id = $1] *)
Definition getLogCount (tbl : Table) (sessionId : string) : nat :=
  length (filter (fun r => in_session sessionId r = true) tbl).


End Db.
End Db.

(** ** The replay engine *)

Inductive ReplayStatus : Type := idle | playing | paused | ended.

#[export] Instance ReplayStatus_eq_dec : EqDecision ReplayStatus.
Proof. solve_decision. Defined.

(** One invocation of a callback of [ReplayEngineOptions]. *)
Inductive Callback {num : Type} : Type :=
  | OnLog (log : SystemLog num)
  | OnStatusChange (s : ReplayStatus)
  | OnProgress (progress : num).
Arguments Callback : clear implicits.

Module Replay.
Section Engine.
Context {num : Type} `{Number num}.
Local Open Scope js_scope.

(** The fields of a [ReplayEngine] object. *)
Record Engine := mkEngine {
  batchSize : nat;
  refetchThreshold : nat;
  status : ReplayStatus;
  speed : num;
  queue : list (SystemLog num);
  offset : nat;
  totalLogs : nat;
  emittedCount : nat;
  startTime : num;
  simulationTimeStart : num;
  pausedAt : num;
  rafHandle : option nat;
  isFetching : bool;
}.

(** The engine together with what it talks to. *)
Record World := mkWorld {
  eng : Engine;
  store : list (SystemLog num);          (* the session's rows, as the store orders them *)
  clock : nat -> num;                    (* successive readings of performance.now() *)
  reads : nat;                           (* readings taken so far *)
  inflight : option (list (SystemLog num)); (* a read-ahead batch not yet delivered *)
  frames : nat;                          (* animation frames requested so far *)
  trace : list (Callback num);           (* callbacks invoked, oldest first *)
}.

(** [new ReplayEngine(sessionId, options)] with
    [batchSize ?? 1000] and [refetchThreshold ?? 200]. *)
Definition new_engine (batch threshold : option nat) : Engine :=
  mkEngine (default 1000 batch) (default 200 threshold)
    idle nunit [] 0 0 0 nzero nzero nzero None false.

Definition new_world (batch threshold : option nat)
    (rows : list (SystemLog num)) (clk : nat -> num) : World :=
  mkWorld (new_engine batch threshold) rows clk 0 None 0 [].

(** Field updates. *)
Definition on_eng (f : Engine -> Engine) (w : World) : World :=
  mkWorld (f (eng w)) (store w) (clock w) (reads w) (inflight w) (frames w) (trace w).

Definition set_status s e := mkEngine (batchSize e) (refetchThreshold e) s (speed e)
  (queue e) (offset e) (totalLogs e) (emittedCount e) (startTime e)
  (simulationTimeStart e) (pausedAt e) (rafHandle e) (isFetching e).
Definition set_speed v e := mkEngine (batchSize e) (refetchThreshold e) (status e) v
  (queue e) (offset e) (totalLogs e) (emittedCount e) (startTime e)
  (simulationTimeStart e) (pausedAt e) (rafHandle e) (isFetching e).
Definition set_queue q e := mkEngine (batchSize e) (refetchThreshold e) (status e) (speed e)
  q (offset e) (totalLogs e) (emittedCount e) (startTime e)
  (simulationTimeStart e) (pausedAt e) (rafHandle e) (isFetching e).
Definition set_offset o e := mkEngine (batchSize e) (refetchThreshold e) (status e) (speed e)
  (queue e) o (totalLogs e) (emittedCount e) (startTime e)
  (simulationTimeStart e) (pausedAt e) (rafHandle e) (isFetching e).
Definition set_totalLogs n e := mkEngine (batchSize e) (refetchThreshold e) (status e) (speed e)
  (queue e) (offset e) n (emittedCount e) (startTime e)
  (simulationTimeStart e) (pausedAt e) (rafHandle e) (isFetching e).
Definition set_emittedCount n e := mkEngine (batchSize e) (refetchThreshold e) (status e) (speed e)
  (queue e) (offset e) (totalLogs e) n (startTime e)
  (simulationTimeStart e) (pausedAt e) (rafHandle e) (isFetching e).
Definition set_startTime t e := mkEngine (batchSize e) (refetchThreshold e) (status e) (speed e)
  (queue e) (offset e) (totalLogs e) (emittedCount e) t
  (simulationTimeStart e) (pausedAt e) (rafHandle e) (isFetching e).
Definition set_simulationTimeStart t e := mkEngine (batchSize e) (refetchThreshold e) (status e) (speed e)
  (queue e) (offset e) (totalLogs e) (emittedCount e) (startTime e)
  t (pausedAt e) (rafHandle e) (isFetching e).
Definition set_pausedAt t e := mkEngine (batchSize e) (refetchThreshold e) (status e) (speed e)
  (queue e) (offset e) (totalLogs e) (emittedCount e) (startTime e)
  (simulationTimeStart e) t (rafHandle e) (isFetching e).
Definition set_rafHandle h e := mkEngine (batchSize e) (refetchThreshold e) (status e) (speed e)
  (queue e) (offset e) (totalLogs e) (emittedCount e) (startTime e)
  (simulationTimeStart e) (pausedAt e) h (isFetching e).
Definition set_isFetching b e := mkEngine (batchSize e) (refetchThreshold e) (status e) (speed e)
  (queue e) (offset e) (totalLogs e) (emittedCount e) (startTime e)
  (simulationTimeStart e) (pausedAt e) (rafHandle e) b.

Definition set_inflight p (w : World) : World :=
  mkWorld (eng w) (store w) (clock w) (reads w) p (frames w) (trace w).

(** Invoking a callback. *)
Definition call (c : Callback num) (w : World) : World :=
  mkWorld (eng w) (store w) (clock w) (reads w) (inflight w) (frames w) (trace w ++ [c]).

(** [performance.now()] *)
Definition now (w : World) : num := clock w (reads w).
Definition tick_clock (w : World) : World :=
  mkWorld (eng w) (store w) (clock w) (S (reads w)) (inflight w) (frames w) (trace w).

(** [requestAnimationFrame(this.tick)] stored in [rafHandle] *)
Definition requestAnimationFrame (w : World) : World :=
  mkWorld (set_rafHandle (Some (frames w)) (eng w)) (store w) (clock w) (reads w)
    (inflight w) (S (frames w)) (trace w).

(** [if (this.rafHandle !== null) { cancelAnimationFrame(..); this.rafHandle = null; }] *)
Definition cancel_frame (w : World) : World := on_eng (set_rafHandle None) w.

(** The store as the engine sees it. *)
Definition store_getLogCount (w : World) : nat := length (store w).
Definition store_getLogsBySession (w : World) (limit off : nat) : list (SystemLog num) :=
  take limit (drop off (store w)).

(** [setStatus] *)
Definition setStatus (s : ReplayStatus) (w : World) : World :=
  call (OnStatusChange s) (on_eng (set_status s) w).

(** What [fetchNextBatch] does once the rows have arrived:
    [this.queue.push(...logs); this.offset += logs.length; isFetching = false]. *)
Definition receive_batch (logs : list (SystemLog num)) (w : World) : World :=
  on_eng (fun e => set_isFetching false
                     (set_offset (offset e + length logs)%nat
                        (set_queue (queue e ++ logs) e))) w.

(** [await this.fetchNextBatch()] *)
Definition fetchNextBatch_await (w : World) : World :=
  if isFetching (eng w) then w
  else receive_batch
         (store_getLogsBySession w (batchSize (eng w)) (offset (eng w))) w.

(** [this.fetchNextBatch()] without [await]: the request leaves with the
    current offset, the flag is raised, the rows arrive later. *)
Definition fetchNextBatch_start (w : World) : World :=
  if isFetching (eng w) then w
  else set_inflight
         (Some (store_getLogsBySession w (batchSize (eng w)) (offset (eng w))))
         (on_eng (set_isFetching true) w).

(** Arrival of the rows of the read-ahead request. *)
Definition fetch_complete (w : World) : World :=
  match inflight w with
  | None => w
  | Some logs => receive_batch logs (set_inflight None w)
  end.

(** [simulationTimeStart + (now - startTime) * speed] *)
Definition targetTimeOf (e : Engine) (t : num) : num :=
  simulationTimeStart e + (t - startTime e) * speed e.
Definition targetTime (w : World) (t : num) : num := targetTimeOf (eng w) t.

(** The [while] loop of [tick]; [q] is [this.queue] at the test of the loop. *)
Fixpoint emit_ready (target : num) (q : list (SystemLog num)) (w : World) : World :=
  match q with
  | [] => w
  | log :: rest =>
      if timestamp log <=? target then
        let w1 := call (OnLog log) (on_eng (set_queue rest) w) in
        let w2 := on_eng (fun e => set_emittedCount (S (emittedCount e)) e) w1 in
        let w3 := call (OnProgress (of_count (emittedCount (eng w2))
                                     / of_count (totalLogs (eng w2)))) w2 in
        emit_ready target rest w3
      else w
  end.

(** [tick] once [now] has been read. *)
Definition tick_at (t : num) (w : World) : World :=
  let w1 := emit_ready (targetTime w t) (queue (eng w)) w in
  let w2 := if bool_decide (length (queue (eng w1)) < refetchThreshold (eng w1))%nat
               && negb (isFetching (eng w1))
            then fetchNextBatch_start w1 else w1 in
  if bool_decide (length (queue (eng w2)) = 0%nat)
     && bool_decide (totalLogs (eng w2) <= offset (eng w2))%nat
  then setStatus ended w2
  else requestAnimationFrame w2.

Definition tick (w : World) : World :=
  if bool_decide (status (eng w) = playing) then tick_at (now w) (tick_clock w)
  else w.

(** [start] *)
Definition start_idle (w : World) : World + World :=
  (* inl: returned early; inr: falls through to the common tail *)
  let w1 := on_eng (fun e => set_totalLogs (store_getLogCount w)
              (set_emittedCount 0 (set_queue [] (set_offset 0 e)))) w in
  if bool_decide (totalLogs (eng w1) = 0%nat) then inl (setStatus ended w1)
  else
    let w2 := fetchNextBatch_await w1 in
    match queue (eng w2) with
    | [] => inl (setStatus ended w2)
    | first :: _ =>
        inr (tick_clock
               (on_eng (fun e => set_startTime (now w2)
                          (set_simulationTimeStart (timestamp first) e)) w2))
    end.

Definition start_resume (w : World) : World :=
  let pauseDuration := now w - pausedAt (eng w) in
  tick_clock (on_eng (fun e => set_startTime (startTime e + pauseDuration) e) w).

Definition start (w : World) : World :=
  match status (eng w) with
  | playing => w
  | idle =>
      match start_idle w with
      | inl w' => w'
      | inr w' => tick (setStatus playing w')
      end
  | paused => tick (setStatus playing (start_resume w))
  | ended => tick (setStatus playing w)
  end.

(** [pause] *)
Definition pause (w : World) : World :=
  if bool_decide (status (eng w) = playing) then
    cancel_frame
      (setStatus paused (tick_clock (on_eng (set_pausedAt (now w)) w)))
  else w.

(** [stop] *)
Definition stop (w : World) : World :=
  setStatus idle
    (on_eng (fun e => set_emittedCount 0 (set_offset 0 (set_queue [] e)))
       (cancel_frame w)).

(** [setSpeed] *)
Definition setSpeed (multiplier : num) (w : World) : World :=
  if multiplier <=? nzero then w
  else
    let w1 :=
      if bool_decide (status (eng w) = playing) then
        let t := now w in
        let realElapsed := t - startTime (eng w) in
        let simElapsed := realElapsed * speed (eng w) in
        tick_clock (on_eng (set_startTime (t - simElapsed / multiplier)) w)
      else w in
    on_eng (set_speed multiplier) w1.

Definition getSpeed (w : World) : num := speed (eng w).
Definition getStatus (w : World) : ReplayStatus := status (eng w).

(** The re-anchoring of [seek]:
    [if (this.queue.length > 0) { simulationTimeStart = queue[0].timestamp;
    startTime = performance.now(); }] *)
Definition reanchor (w : World) : World :=
  match queue (eng w) with
  | [] => w
  | first :: _ =>
      tick_clock
        (on_eng (fun e => set_startTime (now w)
                   (set_simulationTimeStart (timestamp first) e)) w)
  end.

(** [seek] *)
Definition seek (position : num) (w : World) : World :=
  if (position <? nzero) || (nunit <? position) then w
  else
    let wasPlaying := bool_decide (status (eng w) = playing) in
    let w1 := pause w in
    let targetOffset := Z.to_nat (floor (of_count (totalLogs (eng w1)) * position)) in
    let w2 := on_eng (fun e => set_queue []
                (set_emittedCount targetOffset (set_offset targetOffset e))) w1 in
    let w3 := fetchNextBatch_await w2 in
    let w4 := reanchor w3 in
    let w5 := call (OnProgress position) w4 in
    if wasPlaying then start w5 else w5.

(** What the environment may do between two calls of the consumer. *)
Inductive Step : Type :=
  | Frame          (* the requested animation frame fires: [tick] runs *)
  | Arrival.       (* the rows of the read-ahead request arrive *)

Definition step (s : Step) (w : World) : World :=
  match s with
  | Frame => tick w
  | Arrival => fetch_complete w
  end.

Definition run (steps : list Step) (w : World) : World :=
  fold_left (fun w s => step s w) steps w.

(** Reading a trace. *)
Definition logs_of (tr : list (Callback num)) : list (SystemLog num) :=
  omap (fun c => match c with OnLog l => Some l | _ => None end) tr.
Definition progress_of (tr : list (Callback num)) : list num :=
  omap (fun c => match c with OnProgress p => Some p | _ => None end) tr.
Definition emitted (w : World) : list (SystemLog num) := logs_of (trace w).
Definition last_progress (w : World) : option num :=
  list.last (progress_of (trace w)).

(** The events at the front of a queue that are due at [target]. *)
Fixpoint due (target : num) (q : list (SystemLog num)) : list (SystemLog num) :=
  match q with
  | [] => []
  | log :: rest => if timestamp log <=? target then log :: due target rest else []
  end.

(** The callbacks of emitting [logs] when [count] were emitted before. *)
Fixpoint emissions (count total : nat) (logs : list (SystemLog num)) : list (Callback num) :=
  match logs with
  | [] => []
  | log :: rest =>
      OnLog log :: OnProgress (of_count (S count) / of_count total)
        :: emissions (S count) total rest
  end.

(** A replay under way: [w] is reached from [b], the world in which [start]
    has just announced [playing], by frames and arrivals only. *)
Record replaying (b w : World) : Prop := mkReplaying {
  rp_store : store w = store b;
  rp_clock : clock w = clock b;
  rp_batchSize : batchSize (eng w) = batchSize (eng b);
  rp_refetchThreshold : refetchThreshold (eng w) = refetchThreshold (eng b);
  rp_speed : speed (eng w) = speed (eng b);
  rp_startTime : startTime (eng w) = startTime (eng b);
  rp_simulationTimeStart : simulationTimeStart (eng w) = simulationTimeStart (eng b);
  rp_totalLogs : totalLogs (eng w) = length (store b);
  rp_status : status (eng w) = playing \/ status (eng w) = ended;
  rp_trace :
    exists done,
      trace w = trace b ++ emissions 0 (length (store b)) done
                  ++ (if bool_decide (status (eng w) = ended)
                      then [OnStatusChange ended] else [])
      /\ done ++ queue (eng w) = take (offset (eng w)) (store b)
      /\ emittedCount (eng w) = length done;
  rp_ended :
    status (eng w) = ended ->
    queue (eng w) = [] /\ (length (store b) <= offset (eng w))%nat;
  rp_inflight :
    match inflight w with
    | Some logs =>
        isFetching (eng w) = true
        /\ logs = take (batchSize (eng b)) (drop (offset (eng w)) (store b))
    | None => isFetching (eng w) = false
    end;
}.

(** Every event of the session is due at every reading from the [K]-th on. *)
Definition late_from (K : nat) (w : World) : Prop :=
  forall k, (K <= k)%nat ->
    Forall (fun log => (timestamp log <=? targetTime w (clock w k)) = true) (store w).
End Engine.
End Replay.

(** ** The inspector message buffers *)

Module Inspector.

(** [Array.prototype.slice(start)] with one argument. *)
Definition slice_from {A : Type} (start : Z) (l : list A) : list A :=
  let len := Z.of_nat (length l) in
  let k := if (start <? 0)%Z then Z.max (len + start) 0 else Z.min start len in
  drop (Z.to_nat k) l.

Inductive MessageDirection : Type := request | response.

Record InspectorMessage := mkInspectorMessage {
  id : string;
  timestamp : string;
  direction : MessageDirection;
  serverName : string;
  payload : Payload;
  method : option string;
  durationMs : option Z;
}.

Inductive ActiveView : Type := servers_view | inspector_view | registry_view | settings_view.

(** The part of [AppState] that is data. *)
Record AppState := mkAppState {
  sidebarOpen : bool;
  activeView : ActiveView;
  selectedServer : option string;
  inspectorActive : bool;
  inspectorMessages : list InspectorMessage;
}.

Definition initial_state : AppState :=
  mkAppState true servers_view None false [].

(** [inspectorMessages: [...state.inspectorMessages, message].slice(-500)] *)
Definition addInspectorMessage (message : InspectorMessage) (state : AppState) : AppState :=
  mkAppState (sidebarOpen state) (activeView state) (selectedServer state)
    (inspectorActive state)
    (slice_from (-500) (inspectorMessages state ++ [message])).

Definition clearInspectorMessages (state : AppState) : AppState :=
  mkAppState (sidebarOpen state) (activeView state) (selectedServer state)
    (inspectorActive state) [].

(** The inspector panel. *)
Inductive TrafficDirection : Type := INCOMING | OUTGOING | STDERR.

Record McpTrafficEvent := mkTraffic {
  serverId : string;
  tr_timestamp : string;
  tr_direction : TrafficDirection;
  content : string;
  messageId : string;
}.

Record TrafficMessage := mkTrafficMessage {
  tm_id : string;
  tm_timestamp : string;
  tm_direction : TrafficDirection;
  tm_content : string;
  tm_method : option string;
}.

(** The listener of ["mcp-traffic"]; [json_method] stands for
    [try { JSON.parse(content).method } catch {}]. *)
Definition on_traffic (json_method : string -> option string)
    (selected : option string) (traffic : McpTrafficEvent)
    (prev : list TrafficMessage) : list TrafficMessage :=
  if bool_decide (Some (serverId traffic) = selected) then
    let msg := mkTrafficMessage (messageId traffic) (tr_timestamp traffic)
                 (tr_direction traffic) (content traffic)
                 (json_method (content traffic)) in
    slice_from (-499) prev ++ [msg]
  else prev.

End Inspector.

(** ** Sample data *)

Module Sample.
Import Replay.

Definition log {num : Type} (i : nat) (ts : num) : SystemLog num :=
  mkSystemLog i "s1" ts "info" "mcp" None (PValue "{}") None None None.

Definition raw_log {num : Type} (i : nat) (ts : num) : SystemLog num :=
  mkSystemLog i "s1" ts "info" "mcp" None (PText "{}") None None None.

(** Three events at 0, 100 and 250 ms. *)
Definition three : list (SystemLog Qc) :=
  [log 1 (Qc_of_Z 0); log 2 (Qc_of_Z 100); log 3 (Qc_of_Z 250)].

(** A clock that advances 60 ms between readings. *)
Definition clock60 (n : nat) : Qc := Qc_of_Z (60 * Z.of_nat n).

(** A clock that stands still. *)
Definition clock0 (n : nat) : Qc := Qc_of_Z 0.

Definition fresh : World := new_world None None three clock60.
Definition fresh_still : World := new_world None None three clock0.

(** A session played to its end: [start], five frames. *)
Definition finished : World :=
  run [Frame; Frame; Frame; Frame; Frame] (start fresh).

(** Playing, with no read-ahead request in flight. *)
Definition playing_still : World := fetch_complete (start fresh_still).

(** A clock that reads 10 five times, then 110, then 200 for ever. *)
Definition clock_uneven (n : nat) : Qc :=
  if (n <? 5)%nat then Qc_of_Z 10
  else if (n =? 5)%nat then Qc_of_Z 110 else Qc_of_Z 200.

(** Playing on that clock, with a refetch threshold of 1: the first event has
    been emitted, two are queued, and no request is or will be in flight
    while the queue is not empty. *)
Definition playing_uneven : World :=
  start (new_world None (Some 1%nat) three clock_uneven).

(** The two rows of a table that share a timestamp. *)
Definition tied : Db.Table (num := Qc) :=
  [raw_log 1 (Qc_of_Z 5); raw_log 2 (Qc_of_Z 5)].


End Sample.

(** ** The other operations of the database layer *)

Module DbOps.
Section DbOps.
Context {num : Type} `{Number num}.

(** A row of [sessions]. *)
Record Session := mkSession {
  sid : string;                  (* id *)
  started_at : num;
  ended_at : option num;
  s_server_name : option string;
  log_count : nat;
  description : option string;
}.

(** The two tables. *)
Record Database := mkDatabase {
  system_logs : Db.Table (num := num);
  sessions : list Session;
}.

(** [insertLog(log)]: one [INSERT INTO system_logs].  The id is given by the
    store ([fresh_id]); the payload is stored as [JSON.stringify(log.payload)]
    ([JSON_stringify], a builtin, is a parameter). *)
Definition insertLog (JSON_stringify : Payload -> string) (fresh_id : nat)
    (log : SystemLog num) (db : Database) : Database :=
  mkDatabase
    (system_logs db ++
       [mkSystemLog fresh_id (session_id log) (timestamp log) (level log)
          (category log) (message log) (PText (JSON_stringify (payload log)))
          (trace_id log) (server_name log) (direction log)])
    (sessions db).

(** [endSession(sessionId)]:
    [UPDATE sessions SET ended_at = $1, log_count = $2 WHERE id = $3]
    with [$1 = Date.now()] and [$2 = await getLogCount(sessionId)]. *)
Definition endSession (date_now : num) (sessionId : string) (db : Database) : Database :=
  let count := Db.getLogCount (system_logs db) sessionId in
  mkDatabase (system_logs db)
    (map (fun s => if bool_decide (sid s = sessionId)
                   then mkSession (sid s) (started_at s) (Some date_now)
                          (s_server_name s) count (description s)
                   else s)
         (sessions db)).

(** [deleteSession(sessionId)]:
    [DELETE FROM system_logs WHERE session_id = $1] and
    [DELETE FROM sessions WHERE id = $1]. *)
Definition deleteSession (sessionId : string) (db : Database) : Database :=
  mkDatabase
    (filter (fun r => session_id r <> sessionId) (system_logs db))
    (filter (fun s => sid s <> sessionId) (sessions db)).

(** [clearAllLogs()]: [DELETE FROM system_logs] and
    [UPDATE sessions SET log_count = 0]. *)
Definition clearAllLogs (db : Database) : Database :=
  mkDatabase []
    (map (fun s => mkSession (sid s) (started_at s) (ended_at s)
                     (s_server_name s) 0 (description s))
         (sessions db)).

(** The stored [log_count] of every ended session is the number of its rows. *)
Definition counts_agree (db : Database) : Prop :=
  forall s, s ∈ sessions db -> ended_at s <> None ->
    log_count s = Db.getLogCount (system_logs db) (sid s).
End DbOps.
End DbOps.

(** ** The message filter of the inspector panel *)

Module Panel.
Import Inspector.

Inductive DirectionFilter : Type := all | incoming | outgoing.

#[export] Instance DirectionFilter_eq_dec : EqDecision DirectionFilter.
Proof. solve_decision. Defined.

#[export] Instance TrafficDirection_eq_dec : EqDecision TrafficDirection.
Proof. solve_decision. Defined.

Section Filter.
(** The string builtins the filter uses. *)
Variable toLowerCase : string -> string.
Variable includes : string -> string -> bool.   (* includes s q = s.includes(q) *)
Variable trim : string -> string.

(** The callback of [messages.filter(...)]. *)
Definition shown (filter : DirectionFilter) (searchQuery : string)
    (msg : TrafficMessage) : bool :=
  if bool_decide (filter <> all)
     && bool_decide (filter = incoming) && bool_decide (tm_direction msg <> INCOMING)
  then false
  else if bool_decide (filter <> all)
          && bool_decide (filter = outgoing) && bool_decide (tm_direction msg <> OUTGOING)
  then false
  else if bool_decide (trim searchQuery <> "") then
    let query := toLowerCase searchQuery in
    includes (toLowerCase (tm_content msg)) query
    || match tm_method msg with
       | Some m => bool_decide (m <> "") && includes (toLowerCase m) query
       | None => false
       end
  else true.

Definition filteredMessages (filter : DirectionFilter) (searchQuery : string)
    (messages : list TrafficMessage) : list TrafficMessage :=
  List.filter (shown filter searchQuery) messages.
End Filter.

(** The message that the traffic listener builds from an event. *)
Definition to_message (json_method : string -> option string)
    (traffic : McpTrafficEvent) : TrafficMessage :=
  mkTrafficMessage (messageId traffic) (tr_timestamp traffic)
    (tr_direction traffic) (content traffic) (json_method (content traffic)).
End Panel.

(** ** String helpers of [lib/utils] *)

Module Utils.

(** A JavaScript string: its UTF-16 code units. *)
Definition jsstring := list N.

(** [String.prototype.slice(start, end)] (and [Array.prototype.slice]). *)
Definition slice {A : Type} (start stop : Z) (l : list A) : list A :=
  let len := Z.of_nat (length l) in
  let from := if (start <? 0)%Z then Z.max (len + start) 0 else Z.min start len in
  let to := if (stop <? 0)%Z then Z.max (len + stop) 0 else Z.min stop len in
  take (Z.to_nat (to - from)) (drop (Z.to_nat from) l).

Definition dots : jsstring := [46; 46; 46]%N.                       (* "..." *)
Definition bullets (n : nat) : jsstring := replicate n 8226%N.       (* U+2022 *)

(** [truncate(str, maxLength)], for an integer [maxLength]. *)
Definition truncate (str : jsstring) (maxLength : Z) : jsstring :=
  if (Z.of_nat (length str) <=? maxLength)%Z then str
  else slice 0 (maxLength - 3) str ++ dots.

(** [maskSensitive(value)] *)
Definition maskSensitive (value : jsstring) : jsstring :=
  if (length value <=? 8)%nat then bullets 8
  else slice 0 4 value ++ bullets 4 ++ Inspector.slice_from (-4) value.
End Utils.

(** ** The expansion set of the log viewer *)

Module Viewer.

(** A [Set<number>] of row ids: its elements in insertion order, each once. *)
Definition IdSet := list Z.

(** The updater of [toggleExpanded(id)]: a copy of the set, from which [id]
    is deleted if it was there and to which it is added if not. *)
Definition toggleExpanded (id : Z) (prev : IdSet) : IdSet :=
  let next := prev in
  if bool_decide (id ∈ next) then filter (fun x => x <> id) next
  else next ++ [id].
End Viewer.

(** ** More sample data *)

Module MoreSamples.
Import Replay.

(** The sample session, started on the advancing clock and paused after its
    first event. *)
Definition paused60 : World := pause (fetch_complete (start Sample.fresh)).

(** The sample session played to its end and stopped while the last
    read-ahead request is still in flight. *)
Definition stopped_early : World := stop Sample.finished.

Definition frames (n : nat) : list (@Step) := replicate n Frame.

(** A database holding the two tied rows of session ["s1"], which has ended
    with its two rows counted. *)
Definition recorded : DbOps.Database (num := Qc) :=
  DbOps.mkDatabase Sample.tied
    [DbOps.mkSession "s1" (Qc_of_Z 0) (Some (Qc_of_Z 9)) None 2 None].

(** One traffic event of server ["fs"]. *)
Definition event (dir : Inspector.TrafficDirection) (mid : string) :
    Inspector.McpTrafficEvent :=
  Inspector.mkTraffic "fs" "2024-01-01T00:00:00Z" dir "{}" mid.

(** ["sk-12345678"] as UTF-16 code units. *)
Definition secret : Utils.jsstring :=
  [115; 107; 45; 49; 50; 51; 52; 53; 54; 55; 56]%N.
End MoreSamples.

(* ================================================================== *)
(** * Part II: properties *)
(* ================================================================== *)

(** ** The engine over any number type *)

Module ReplayFacts.
Import Replay.

Section Generic.
Context {num : Type} `{Number num}.
Local Open Scope js_scope.
Implicit Types (w : @World num) (e : @Engine num) (q : list (SystemLog num)).

(** *** The loop of [tick] *)

Lemma due_prefix target q : due target q = take (length (due target q)) q.
Proof.
  induction q as [|log rest IH]; cbn; [done|].
  destruct (timestamp log <=? target); cbn; [by f_equal | done].
Qed.

Lemma due_all_ready target q :
  Forall (fun log => (timestamp log <=? target) = true) (due target q).
Proof.
  induction q as [|log rest IH]; cbn; [constructor|].
  destruct (timestamp log <=? target) eqn:E; by constructor.
Qed.

Lemma due_stops target q log :
  drop (length (due target q)) q !! 0%nat = Some log ->
  (timestamp log <=? target) = false.
Proof.
  induction q as [|x rest IH]; cbn; [done|].
  destruct (timestamp x <=? target) eqn:E; cbn; [done|].
  intros [= <-]. done.
Qed.

Lemma due_everything target q :
  Forall (fun log => (timestamp log <=? target) = true) q -> due target q = q.
Proof.
  induction 1 as [|log rest Hlog _ IH]; cbn; [done|].
  by rewrite Hlog, IH.
Qed.

Lemma logs_of_app (a b : list (Callback num)) :
  logs_of (a ++ b) = logs_of a ++ logs_of b.
Proof. apply omap_app. Qed.

Lemma progress_of_app (a b : list (Callback num)) :
  progress_of (a ++ b) = progress_of a ++ progress_of b.
Proof. apply omap_app. Qed.

Lemma logs_of_emissions count total q : logs_of (emissions count total q) = q.
Proof.
  revert count; induction q as [|log rest IH]; intros count; cbn; [done|].
  f_equal. apply IH.
Qed.

Lemma last_progress_emissions count total q :
  q <> [] ->
  list.last (progress_of (emissions count total q))
  = Some (of_count (count + length q) / of_count total).
Proof.
  revert count; induction q as [|log rest IH]; intros count Hq; [done|].
  change (progress_of (emissions count total (log :: rest)))
    with (of_count (S count) / of_count total
            :: progress_of (emissions (S count) total rest)).
  rewrite last_cons. destruct rest as [|log' rest'].
  - cbn. do 3 f_equal. lia.
  - rewrite IH by done. cbn [length]. do 3 f_equal. lia.
Qed.

(** The loop in closed form: it removes [due target q] from the front of
    the queue, counts them, and reports each of them. *)
Lemma emit_ready_closed target q w :
  queue (eng w) = q ->
  emit_ready target q w
  = mkWorld
      (set_emittedCount (emittedCount (eng w) + length (due target q))%nat
         (set_queue (drop (length (due target q)) q) (eng w)))
      (store w) (clock w) (reads w) (inflight w) (frames w)
      (trace w ++ emissions (emittedCount (eng w)) (totalLogs (eng w)) (due target q)).
Proof.
  revert w; induction q as [|log rest IH]; intros w Hq.
  - cbn. destruct w as [e ? ? ? ? ? ?]; destruct e; cbn in *; subst.
    rewrite app_nil_r. unfold set_emittedCount, set_queue; cbn.
    do 2 f_equal. lia.
  - cbn. destruct (timestamp log <=? target) eqn:E.
    + rewrite IH by done. cbn.
      destruct w as [e ? ? ? ? ? ?]; destruct e; cbn in *.
      unfold set_emittedCount, set_queue; cbn.
      f_equal; [f_equal; lia | by rewrite <- !app_assoc].
    + cbn. destruct w as [e ? ? ? ? ? ?]; destruct e; cbn in *; subst.
      rewrite app_nil_r. unfold set_emittedCount, set_queue; cbn.
      do 2 f_equal. lia.
Qed.

(** One [tick] with the clock already read: what changes and what does not. *)
Lemma tick_at_spec t w :
  let d := due (targetTime w t) (queue (eng w)) in
  let q' := drop (length d) (queue (eng w)) in
  exists st raf fetching infl fr tail,
    tick_at t w
    = mkWorld
        (mkEngine (batchSize (eng w)) (refetchThreshold (eng w)) st (speed (eng w))
           q' (offset (eng w)) (totalLogs (eng w))
           (emittedCount (eng w) + length d)%nat (startTime (eng w))
           (simulationTimeStart (eng w)) (pausedAt (eng w)) raf fetching)
        (store w) (clock w) (reads w) infl fr
        (trace w ++ emissions (emittedCount (eng w)) (totalLogs (eng w)) d ++ tail)
    /\ ((st = ended /\ tail = [OnStatusChange ended] /\ q' = []
         /\ (totalLogs (eng w) <= offset (eng w))%nat)
        \/ (st = status (eng w) /\ tail = []
            /\ ~ (q' = [] /\ (totalLogs (eng w) <= offset (eng w))%nat)))
    /\ ((fetching = isFetching (eng w) /\ infl = inflight w
         /\ ~ ((length q' < refetchThreshold (eng w))%nat /\ isFetching (eng w) = false))
        \/ (isFetching (eng w) = false /\ fetching = true
            /\ infl = Some (store_getLogsBySession w (batchSize (eng w)) (offset (eng w)))
            /\ (length q' < refetchThreshold (eng w))%nat)).
Proof.
  intros d q'. unfold tick_at.
  rewrite emit_ready_closed by done. fold d. fold q'.
  set (w1 := mkWorld _ _ _ _ _ _ _).
  assert (Hfetch :
    exists fetching infl,
      (if bool_decide (length (queue (eng w1)) < refetchThreshold (eng w1))%nat
          && negb (isFetching (eng w1))
       then fetchNextBatch_start w1 else w1)
      = mkWorld (set_isFetching fetching (eng w1)) (store w) (clock w) (reads w)
          infl (frames w) (trace w1)
      /\ ((fetching = isFetching (eng w) /\ infl = inflight w
           /\ ~ ((length q' < refetchThreshold (eng w))%nat
                 /\ isFetching (eng w) = false))
          \/ (isFetching (eng w) = false /\ fetching = true
              /\ infl = Some (store_getLogsBySession w (batchSize (eng w)) (offset (eng w)))
              /\ (length q' < refetchThreshold (eng w))%nat))).
  { destruct (bool_decide (length (queue (eng w1)) < refetchThreshold (eng w1))%nat)
      eqn:Hlow; cbn [andb].
    - destruct (isFetching (eng w1)) eqn:Hf; cbn [negb].
      + exists (isFetching (eng w)), (inflight w). split; [|left].
        * subst w1. by unfold set_isFetching, set_emittedCount, set_queue.
        * split_and!; [done..|]. intros [_ Hno]. subst w1; cbn in Hf. congruence.
      + exists true, (Some (store_getLogsBySession w (batchSize (eng w)) (offset (eng w)))).
        split.
        * unfold fetchNextBatch_start. rewrite Hf. by subst w1.
        * right. apply bool_decide_eq_true in Hlow. by subst w1.
    - exists (isFetching (eng w)), (inflight w). split; [|left].
      + subst w1. by unfold set_isFetching, set_emittedCount, set_queue.
      + split_and!; [done..|]. intros [Hlt _].
        apply bool_decide_eq_false in Hlow. by subst w1. }
  destruct Hfetch as (fetching & infl & -> & Hcases).
  cbn [eng queue totalLogs offset set_isFetching].
  subst w1. cbn [eng queue totalLogs offset set_emittedCount set_queue trace].
  destruct (bool_decide (length q' = 0%nat)) eqn:Hempty; cbn [andb];
    [destruct (bool_decide (totalLogs (eng w) <= offset (eng w))%nat) eqn:Hdone|].
  - exists ended, (rafHandle (eng w)), fetching, infl, (frames w), [OnStatusChange ended].
    apply bool_decide_eq_true in Hempty, Hdone.
    split; [|split; [left|done]].
    + unfold setStatus, call, on_eng; cbn. by rewrite <- app_assoc.
    + by rewrite (nil_length_inv _ Hempty).
  - exists (status (eng w)), (Some (frames w)), fetching, infl, (S (frames w)), [].
    apply bool_decide_eq_false in Hdone.
    split; [|split; [right|done]].
    + unfold requestAnimationFrame; cbn. by rewrite !app_nil_r.
    + split_and!; [done..|]. intros [_ ?]. done.
  - exists (status (eng w)), (Some (frames w)), fetching, infl, (S (frames w)), [].
    apply bool_decide_eq_false in Hempty.
    split; [|split; [right|done]].
    + unfold requestAnimationFrame; cbn. by rewrite !app_nil_r.
    + split_and!; [done..|]. intros [Hq _]. by rewrite Hq in Hempty.
Qed.

Lemma tick_at_speed t w : speed (eng (tick_at t w)) = speed (eng w).
Proof. destruct (tick_at_spec t w) as (?&?&?&?&?&?&->&_). done. Qed.

Lemma tick_speed w : speed (eng (tick w)) = speed (eng w).
Proof. unfold tick. case_bool_decide; [by rewrite tick_at_speed | done]. Qed.

Lemma fetchNextBatch_await_speed w :
  speed (eng (fetchNextBatch_await w)) = speed (eng w).
Proof. unfold fetchNextBatch_await. by destruct (isFetching (eng w)). Qed.

Lemma start_speed w : speed (eng (start w)) = speed (eng w).
Proof.
  unfold start. destruct (status (eng w)); [|done|..].
  - unfold start_idle. case_bool_decide; [done|].
    destruct (queue (eng (fetchNextBatch_await _))) eqn:Hq.
    + cbn. by rewrite fetchNextBatch_await_speed.
    + rewrite tick_speed. cbn. by rewrite fetchNextBatch_await_speed.
  - by rewrite tick_speed.
  - by rewrite tick_speed.
Qed.

(** *** One scheduling tick *)

(** C2. A [tick] taken while playing reads the clock once, computes
    [target = simulationTimeStart + (now - startTime) * speed], and emits the
    events [due target queue]: the longest front of the queue whose timestamps
    are all [<= target], in queue order.  Each emission is [onLog] followed by
    [onProgress(emittedCount / totalLogs)] with the count already advanced by
    one.  The first event left in the queue is not due, and no event that is
    not due is emitted. *)
Theorem tick_emits_due_events w :
  status (eng w) = playing ->
  let target := simulationTimeStart (eng w) + (now w - startTime (eng w)) * speed (eng w) in
  let d := due target (queue (eng w)) in
  d = take (length d) (queue (eng w))
  /\ Forall (fun log => (timestamp log <=? target) = true) d
  /\ queue (eng (tick w)) = drop (length d) (queue (eng w))
  /\ (forall log, queue (eng (tick w)) !! 0%nat = Some log ->
                  (timestamp log <=? target) = false)
  /\ emitted (tick w) = emitted w ++ d
  /\ (forall log, (timestamp log <=? target) = false ->
                  log ∉ drop (length (emitted w)) (emitted (tick w)))
  /\ emittedCount (eng (tick w)) = (emittedCount (eng w) + length d)%nat
  /\ exists tail,
       trace (tick w)
       = trace w ++ emissions (emittedCount (eng w)) (totalLogs (eng w)) d ++ tail
       /\ (tail = [] \/ tail = [OnStatusChange ended]).
Proof.
  intros Hplaying target d.
  unfold tick. rewrite bool_decide_eq_true_2 by done.
  destruct (tick_at_spec (now w) (tick_clock w))
    as (st & raf & fetching & infl & fr & tail & -> & Hend & _).
  change (targetTime (tick_clock w) (now w)) with target.
  change (queue (eng (tick_clock w))) with (queue (eng w)).
  change (emittedCount (eng (tick_clock w))) with (emittedCount (eng w)).
  change (totalLogs (eng (tick_clock w))) with (totalLogs (eng w)).
  change (trace (tick_clock w)) with (trace w).
  fold d. cbn [eng queue emittedCount trace].
  assert (Hready := due_all_ready target (queue (eng w))). fold d in Hready.
  assert (Hemitted :
    logs_of (trace w ++ emissions (emittedCount (eng w)) (totalLogs (eng w)) d ++ tail)
    = emitted w ++ d).
  { rewrite !logs_of_app, logs_of_emissions.
    destruct Hend as [(_ & -> & _)|(_ & -> & _)]; cbn; by rewrite app_nil_r. }
  split_and!.
  - apply due_prefix.
  - done.
  - done.
  - apply due_stops.
  - done.
  - intros log Hlate. unfold emitted; cbn [trace]. rewrite Hemitted.
    rewrite drop_app_length. intros Hin.
    apply list_elem_of_In in Hin.
    rewrite Forall_forall in Hready. specialize (Hready log Hin). congruence.
  - done.
  - exists tail. split; [done|].
    destruct Hend as [(_ & -> & _)|(_ & -> & _)]; auto.
Qed.

(** *** A whole replay *)

Lemma emissions_app count total (a b : list (SystemLog num)) :
  emissions count total (a ++ b)
  = emissions count total a ++ emissions (count + length a) total b.
Proof.
  revert count; induction a as [|log rest IH]; intros count; cbn.
  - by rewrite Nat.add_0_r.
  - rewrite IH. by replace (S count + length rest)%nat with (count + S (length rest))%nat by lia.
Qed.

Lemma take_length_take {A} (rows : list A) (batch : nat) :
  take (length (take batch rows)) rows = take batch rows.
Proof.
  rewrite length_take.
  destruct (decide (batch <= length rows)%nat).
  - by rewrite Nat.min_l.
  - rewrite Nat.min_r by lia. by rewrite !take_ge by lia.
Qed.

(** Two consecutive pages of the store are one longer page. *)
Lemma pages_join {A} (rows : list A) (off batch : nat) :
  take off rows ++ take batch (drop off rows)
  = take (off + length (take batch (drop off rows))) rows.
Proof.
  rewrite <- take_take_drop. f_equal. by rewrite take_length_take.
Qed.

Lemma replaying_arrival b w : replaying b w -> replaying b (fetch_complete w).
Proof.
  intros Hrp.
  unfold fetch_complete. destruct (inflight w) as [logs|] eqn:Hin; [|done].
  destruct Hrp as [Hst Hck Hb Hth Hsp Hs0 Hsim Htot Hstatus Htr Hend Hfl].
  rewrite Hin in Hfl. destruct Hfl as [_ Hlogs].
  destruct Htr as (done & Htrace & Hdone & Hcount).
  constructor; cbn; try done.
  - exists done. split_and!; [done| |done].
    rewrite app_assoc, Hdone, Hlogs. apply pages_join.
  - intros Hended. destruct (Hend Hended) as [Hq Hoff].
    assert (logs = []) as ->.
    { rewrite Hlogs, drop_ge by lia. apply take_nil. }
    rewrite Hq. split; [done|]. cbn. lia.
Qed.

Lemma replaying_frame b w : replaying b w -> replaying b (tick w).
Proof.
  intros Hrp. unfold tick. case_bool_decide as Hplaying; [|done].
  destruct Hrp as [Hst Hck Hb Hth Hsp Hs0 Hsim Htot Hstatus Htr Hend Hfl].
  destruct (tick_at_spec (now w) (tick_clock w))
    as (st & raf & fetching & infl & fr & tail & -> & Hcase & Hfetch).
  cbn [tick_clock eng store clock reads inflight frames trace] in *.
  set (d := due _ _) in *.
  destruct Htr as (done & Htrace & Hdone & Hcount).
  rewrite bool_decide_eq_false_2 in Htrace by congruence.
  rewrite app_nil_r in Htrace.
  constructor; cbn; try done.
  - destruct Hcase as [(-> & _)|(-> & _)]; auto.
  - exists (done ++ d). split_and!.
    + rewrite Htrace, emissions_app, Htot, Hcount, <- !app_assoc. cbn.
      do 3 f_equal.
      destruct Hcase as [(-> & -> & _)|(-> & -> & _)].
      * by rewrite bool_decide_eq_true_2.
      * by rewrite bool_decide_eq_false_2 by congruence.
    + rewrite <- Hdone, <- app_assoc. f_equal.
      subst d. rewrite due_prefix at 1. apply take_drop.
    + rewrite length_app. lia.
  - intros ->. destruct Hcase as [(_ & _ & Hq & Hoff)|(Hs & _)]; [|congruence].
    split; [done|]. lia.
  - destruct Hfetch as [(-> & -> & _)|(Hf & -> & -> & _)].
    + done.
    + split; [done|]. unfold store_getLogsBySession; cbn. by rewrite Hst, Hb.
Qed.

Lemma replaying_run b steps w : replaying b w -> replaying b (run steps w).
Proof.
  revert w; induction steps as [|s steps IH]; intros w Hrp; [done|].
  cbn. apply IH. destruct s; [by apply replaying_frame | by apply replaying_arrival].
Qed.

Lemma run_app steps1 steps2 w : run (steps1 ++ steps2) w = run steps2 (run steps1 w).
Proof. apply fold_left_app. Qed.

(** At the end of a replay every event of the session has been emitted, once
    and in order, and the last progress reported is [N / N]. *)
Lemma replaying_ended b w :
  replaying b w -> status (eng w) = ended ->
  emitted w = emitted b ++ store b
  /\ (store b <> [] ->
      last_progress w
      = Some (of_count (length (store b)) / of_count (length (store b)))).
Proof.
  intros [Hst Hck Hb Hth Hsp Hs0 Hsim Htot Hstatus Htr Hend Hfl] Hended.
  destruct Htr as (done & Htrace & Hdone & Hcount).
  destruct (Hend Hended) as [Hq Hoff].
  rewrite Hq, app_nil_r, take_ge in Hdone by lia. subst done.
  rewrite bool_decide_eq_true_2 in Htrace by done.
  split.
  - unfold emitted. rewrite Htrace, !logs_of_app, logs_of_emissions. cbn.
    by rewrite app_nil_r.
  - intros Hne. unfold last_progress.
    rewrite Htrace, !progress_of_app. cbn. rewrite app_nil_r.
    assert (Hne' : progress_of (emissions 0 (length (store b)) (store b)) <> []).
    { destruct (store b); [done|]. done. }
    rewrite last_app.
    by rewrite last_progress_emissions.
Qed.

(** [start] from idle on an empty session. *)
Lemma start_idle_empty w :
  status (eng w) = idle -> store w = [] ->
  status (eng (start w)) = ended
  /\ trace (start w) = trace w ++ [OnStatusChange ended].
Proof.
  intros Hidle Hempty. unfold start, start_idle, store_getLogCount.
  rewrite Hidle, Hempty. cbn. done.
Qed.

(** [start] from idle on a session with events: initialisation, then the
    announcement of [playing], then the first tick. *)
Lemma start_idle_nonempty w :
  status (eng w) = idle -> isFetching (eng w) = false -> inflight w = None ->
  store w <> [] -> (0 < batchSize (eng w))%nat ->
  exists b,
    start w = tick b /\ replaying b b /\ status (eng b) = playing
    /\ trace b = trace w ++ [OnStatusChange playing]
    /\ store b = store w /\ clock b = clock w
    /\ refetchThreshold (eng b) = refetchThreshold (eng w)
    /\ batchSize (eng b) = batchSize (eng w).
Proof.
  intros Hidle Hfetch Hin Hne Hbatch.
  unfold start, start_idle, store_getLogCount. rewrite Hidle.
  destruct (store w) as [|first rest] eqn:Hstore; [done|].
  rewrite bool_decide_eq_false_2 by (cbn; done).
  unfold fetchNextBatch_await. cbn [on_eng eng isFetching set_totalLogs
    set_emittedCount set_queue set_offset].
  rewrite Hfetch. unfold store_getLogsBySession; cbn [on_eng store eng batchSize
    offset set_totalLogs set_emittedCount set_queue set_offset].
  rewrite Hstore.
  destruct (batchSize (eng w)) as [|k] eqn:Hk; [lia|].
  cbn [drop take receive_batch on_eng eng queue set_isFetching set_offset
       set_queue app].
  eexists. split; [reflexivity|].
  split; [|cbn; rewrite Hstore, Hk; done].
  constructor; cbn; try done.
  - by rewrite Hstore.
  - by left.
  - exists []. cbn. rewrite app_nil_r, Hstore. split_and!; [done| |done].
    cbn. f_equal. by rewrite take_length_take.
  - by rewrite Hin.
Qed.

(** *** The replay comes to its end *)

Lemma late_from_same K b w :
  replaying b w -> late_from K b -> late_from K w.
Proof.
  intros [Hst Hck _ _ Hsp Hs0 Hsim _ _ _ _ _] Hlate k Hk.
  specialize (Hlate k Hk). unfold targetTime, targetTimeOf in *.
  by rewrite Hst, Hck, Hsp, Hs0, Hsim.
Qed.

(** Frames pass until the clock has been read [K] times, unless the replay
    ends first. *)
Lemma frames_reach K b w :
  replaying b w ->
  exists steps,
    status (eng (run steps w)) = ended
    \/ (status (eng (run steps w)) = playing /\ (K <= reads (run steps w))%nat).
Proof.
  intros Hrp.
  remember (K - reads w)%nat as n eqn:Hn.
  revert w Hrp Hn; induction n as [|n IH]; intros w Hrp Hn.
  - exists []. cbn. destruct (rp_status _ _ Hrp); [right|left]; [|done].
    split; [done|lia].
  - destruct (rp_status _ _ Hrp) as [Hplaying|Hended]; [|exists []; by left].
    destruct (IH (tick w)) as [steps Hsteps].
    + by apply replaying_frame.
    + unfold tick. rewrite bool_decide_eq_true_2 by done.
      destruct (tick_at_spec (now w) (tick_clock w)) as (?&?&?&?&?&?&->&_).
      cbn. lia.
    + exists (Frame :: steps). done.
Qed.

(** A frame when every event is due empties the queue. *)
Lemma late_frame K b w :
  replaying b w -> late_from K b -> status (eng w) = playing ->
  (K <= reads w)%nat ->
  queue (eng (tick w)) = []
  /\ (K <= reads (tick w))%nat
  /\ offset (eng (tick w)) = offset (eng w)
  /\ ((length (store b) <= offset (eng w))%nat -> status (eng (tick w)) = ended)
  /\ ((offset (eng w) < length (store b))%nat -> isFetching (eng w) = false ->
      (0 < refetchThreshold (eng b))%nat ->
      status (eng (tick w)) = playing
      /\ inflight (tick w)
         = Some (take (batchSize (eng b)) (drop (offset (eng w)) (store b)))).
Proof.
  intros Hrp Hlate Hplaying HK.
  assert (Hlate' := late_from_same K b w Hrp Hlate (reads w) HK).
  destruct Hrp as [Hst Hck Hb Hth Hsp Hs0 Hsim Htot Hstatus Htr Hend Hfl].
  destruct Htr as (done & _ & Hdone & _).
  assert (Hall : due (targetTime w (now w)) (queue (eng w)) = queue (eng w)).
  { apply due_everything. unfold now.
    rewrite Forall_forall in Hlate'. apply Forall_forall. intros log Hlog.
    apply Hlate'. rewrite Hst.
    apply list_elem_of_In, (subseteq_take (offset (eng w))).
    rewrite <- Hdone. apply elem_of_app. right. by apply list_elem_of_In. }
  unfold tick. rewrite bool_decide_eq_true_2 by done.
  destruct (tick_at_spec (now w) (tick_clock w))
    as (st & raf & fetching & infl & fr & tail & -> & Hcase & Hfetch).
  cbn [tick_clock eng store clock reads inflight frames trace queue offset
       status batchSize refetchThreshold totalLogs isFetching] in *.
  change (targetTime (tick_clock w) (now w)) with (targetTime w (now w)) in *.
  rewrite Hall in *. rewrite drop_all in *.
  split_and!.
  - done.
  - lia.
  - done.
  - intros Hoff. destruct Hcase as [(-> & _)|(_ & _ & Hno)]; [done|].
    exfalso. apply Hno. split; [done|lia].
  - intros Hoff Hnofetch Hthr.
    destruct Hcase as [(_ & _ & _ & Hle)|(-> & _)]; [lia|].
    split; [done|].
    destruct Hfetch as [(_ & _ & Hno)|(_ & _ & -> & _)].
    + exfalso. apply Hno. cbn. split; [lia|done].
    + unfold store_getLogsBySession; cbn. by rewrite Hst, Hb.
Qed.

Lemma fetch_complete_facts w :
  status (eng (fetch_complete w)) = status (eng w)
  /\ reads (fetch_complete w) = reads w
  /\ inflight (fetch_complete w) = None
  /\ offset (eng (fetch_complete w))
     = (offset (eng w)
        + match inflight w with Some logs => length logs | None => 0 end)%nat.
Proof.
  unfold fetch_complete. destruct (inflight w) eqn:Hin; cbn; [done|].
  rewrite Hin. split_and!; [done..|lia].
Qed.

(** Once every event is due, arrivals and frames in turn end the replay. *)
Lemma late_replay_ends K b w :
  replaying b w -> late_from K b ->
  (0 < batchSize (eng b))%nat -> (0 < refetchThreshold (eng b))%nat ->
  status (eng w) = playing -> (K <= reads w)%nat ->
  exists steps, status (eng (run steps w)) = ended.
Proof.
  intros Hrp Hlate Hbatch Hthr.
  remember (length (store b) - offset (eng w))%nat as n eqn:Hn.
  assert (Hle : (length (store b) - offset (eng w) <= n)%nat) by lia. clear Hn.
  revert w Hrp Hle; induction n as [|n IH]; intros w Hrp Hle Hplaying HK.
  all: destruct (fetch_complete_facts w) as (Hs1 & Hr1 & Hi1 & Ho1).
  all: assert (Hrp1 := replaying_arrival b w Hrp).
  all: destruct (late_frame K b (fetch_complete w) Hrp1 Hlate)
         as (Hq2 & Hr2 & Ho2 & Hend2 & Hgo2); [congruence | lia |].
  all: destruct (decide (length (store b) <= offset (eng (fetch_complete w)))%nat)
         as [Hdone|Hmore].
  1, 3: exists [Arrival; Frame]; cbn; by apply Hend2.
  - lia.
  - assert (Hnofetch : isFetching (eng (fetch_complete w)) = false).
    { pose proof (rp_inflight _ _ Hrp1) as Hfl. by rewrite Hi1 in Hfl. }
    destruct Hgo2 as [Hs2 Hi2]; [lia | done | done |].
    set (w2 := tick (fetch_complete w)) in *.
    destruct (fetch_complete_facts w2) as (Hs3 & Hr3 & Hi3 & Ho3).
    rewrite Hi2 in Ho3.
    assert (Hgrow : (0 < length (take (batchSize (eng b))
                          (drop (offset (eng (fetch_complete w))) (store b))))%nat).
    { rewrite length_take, length_drop. lia. }
    destruct (IH (fetch_complete w2)) as [steps Hsteps].
    + apply replaying_arrival. by apply replaying_frame.
    + lia.
    + congruence.
    + lia.
    + exists ([Arrival; Frame; Arrival] ++ steps). by rewrite run_app.
Qed.

(** The replay of a session from idle, over any number type. *)
Lemma replay_from_idle w :
  status (eng w) = idle -> isFetching (eng w) = false -> inflight w = None ->
  store w <> [] -> (0 < batchSize (eng w))%nat ->
  (forall steps,
      status (eng (run steps (start w))) = ended ->
      emitted (run steps (start w)) = emitted w ++ store w
      /\ last_progress (run steps (start w))
         = Some (of_count (length (store w)) / of_count (length (store w))))
  /\ (forall K,
        (0 < refetchThreshold (eng w))%nat -> late_from K (start w) ->
        exists steps, status (eng (run steps (start w))) = ended).
Proof.
  intros Hidle Hfetch Hin Hne Hbatch.
  destruct (start_idle_nonempty w Hidle Hfetch Hin Hne Hbatch)
    as (b & -> & Hrp & Hplaying & Htrace & Hstore & Hclock & Hthr & Hb).
  assert (Hrp1 : replaying b (tick b)) by (by apply replaying_frame).
  split.
  - intros steps Hended.
    destruct (replaying_ended b (run steps (tick b))) as [Hlogs Hlast];
      [by apply replaying_run | done |].
    rewrite Hlogs, Hlast by congruence. rewrite Hstore. split; [|done].
    unfold emitted. rewrite Htrace, logs_of_app. cbn. by rewrite app_nil_r.
  - intros K Hthr' Hlate.
    assert (Hlate_b : late_from K b).
    { intros k Hk. specialize (Hlate k Hk).
      destruct Hrp1 as [Hst Hck _ _ Hsp Hs0 Hsim _ _ _ _ _].
      unfold targetTime, targetTimeOf in *.
      by rewrite Hst, Hck, Hsp, Hs0, Hsim in Hlate. }
    destruct (frames_reach K b (tick b) Hrp1) as [steps1 [Hended|[Hpl HK]]].
    + by exists steps1.
    + destruct (late_replay_ends K b (run steps1 (tick b))) as [steps2 Hsteps2];
        [by apply replaying_run | done | lia | lia | done | done |].
      exists (steps1 ++ steps2). by rewrite run_app.
Qed.

(** *** [start] from [ended], and [stop] *)

Lemma stop_idle w : getStatus (stop w) = idle.
Proof. done. Qed.

(** C4, as amended. [start] initialises only from idle.  On an engine that
    has ended with its queue played out, [start()] announces [playing], runs one
    tick that finds nothing to emit and announces [ended] again: the cursor and
    the emitted count keep their values and no event is replayed.  [stop()]
    brings any state to idle, and it is [start()] after [stop()] (with no
    fetch in flight) that replays the session from its first event. *)
Theorem ended_restarts_only_after_stop w :
  status (eng w) = ended -> queue (eng w) = [] ->
  (totalLogs (eng w) <= offset (eng w))%nat ->
  (status (eng (start w)) = ended
   /\ offset (eng (start w)) = offset (eng w)
   /\ emittedCount (eng (start w)) = emittedCount (eng w)
   /\ trace (start w) = trace w ++ [OnStatusChange playing; OnStatusChange ended])
  /\ (forall w', getStatus (stop w') = idle /\ queue (eng (stop w')) = []
                 /\ offset (eng (stop w')) = 0%nat
                 /\ emittedCount (eng (stop w')) = 0%nat)
  /\ (isFetching (eng w) = false -> inflight w = None ->
      store w <> [] -> (0 < batchSize (eng w))%nat ->
      (forall steps,
          status (eng (run steps (start (stop w)))) = ended ->
          emitted (run steps (start (stop w))) = emitted w ++ store w)
      /\ (forall K,
            (0 < refetchThreshold (eng w))%nat -> late_from K (start (stop w)) ->
            exists steps, status (eng (run steps (start (stop w)))) = ended)).
Proof.
  intros Hended Hq Hoff. split; [|split].
  - unfold start. rewrite Hended.
    unfold tick. rewrite bool_decide_eq_true_2 by done.
    destruct (tick_at_spec (now (setStatus playing w))
                (tick_clock (setStatus playing w)))
      as (st & raf & fetching & infl & fr & tail & -> & Hcase & _).
    cbn [tick_clock setStatus call on_eng eng queue set_status trace offset
         totalLogs emittedCount] in *.
    rewrite Hq in *. cbn [due length drop emissions app] in *.
    destruct Hcase as [(-> & -> & _)|(_ & _ & Hno)].
    + cbn. split_and!; [done|done|lia|by rewrite <- app_assoc].
    + exfalso. by apply Hno.
  - intros w'. by split; [apply stop_idle|].
  - intros Hfetch Hin Hne Hbatch.
    destruct (replay_from_idle (stop w)) as [Hsafe Hlive]; try done.
    split; [|done].
    intros steps Hsteps. destruct (Hsafe steps Hsteps) as [Hlogs _].
    rewrite Hlogs. f_equal. unfold emitted, stop, setStatus, call. cbn [trace].
    rewrite logs_of_app. cbn. by rewrite app_nil_r.
Qed.

(** *** [seek] *)

Lemma pause_not_playing w : status (eng w) <> playing -> pause w = w.
Proof. intros Hs. unfold pause. by rewrite bool_decide_eq_false_2. Qed.

Lemma fetchNextBatch_await_fields w :
  let logs := if isFetching (eng w) then []
              else take (batchSize (eng w)) (drop (offset (eng w)) (store w)) in
  queue (eng (fetchNextBatch_await w)) = queue (eng w) ++ logs
  /\ offset (eng (fetchNextBatch_await w)) = (offset (eng w) + length logs)%nat
  /\ emittedCount (eng (fetchNextBatch_await w)) = emittedCount (eng w)
  /\ status (eng (fetchNextBatch_await w)) = status (eng w)
  /\ totalLogs (eng (fetchNextBatch_await w)) = totalLogs (eng w)
  /\ isFetching (eng (fetchNextBatch_await w)) = isFetching (eng w)
  /\ batchSize (eng (fetchNextBatch_await w)) = batchSize (eng w)
  /\ store (fetchNextBatch_await w) = store w
  /\ trace (fetchNextBatch_await w) = trace w.
Proof.
  unfold fetchNextBatch_await. destruct (isFetching (eng w)) eqn:Hf; cbn.
  - by rewrite app_nil_r, Nat.add_0_r.
  - done.
Qed.

Lemma reanchor_fields w :
  queue (eng (reanchor w)) = queue (eng w)
  /\ offset (eng (reanchor w)) = offset (eng w)
  /\ emittedCount (eng (reanchor w)) = emittedCount (eng w)
  /\ status (eng (reanchor w)) = status (eng w)
  /\ totalLogs (eng (reanchor w)) = totalLogs (eng w)
  /\ isFetching (eng (reanchor w)) = isFetching (eng w)
  /\ batchSize (eng (reanchor w)) = batchSize (eng w)
  /\ store (reanchor w) = store w
  /\ trace (reanchor w) = trace w.
Proof. unfold reanchor. destruct (queue (eng w)) eqn:Hq; cbn; by rewrite ?Hq. Qed.

Lemma seek_not_playing_fields (p : num) w :
  status (eng w) <> playing ->
  (p <? nzero) || (nunit <? p) = false ->
  let target := Z.to_nat (floor (of_count (totalLogs (eng w)) * p)) in
  let logs := if isFetching (eng w) then []
              else take (batchSize (eng w)) (drop target (store w)) in
  offset (eng (seek p w)) = (target + length logs)%nat
  /\ emittedCount (eng (seek p w)) = target
  /\ queue (eng (seek p w)) = logs
  /\ emitted (seek p w) = emitted w
  /\ status (eng (seek p w)) = status (eng w)
  /\ totalLogs (eng (seek p w)) = totalLogs (eng w)
  /\ isFetching (eng (seek p w)) = isFetching (eng w)
  /\ batchSize (eng (seek p w)) = batchSize (eng w)
  /\ store (seek p w) = store w.
Proof.
  intros Hs Hp target logs. unfold seek. rewrite Hp.
  rewrite bool_decide_eq_false_2 by done. rewrite pause_not_playing by done.
  cbv zeta. fold target.
  set (w2 := on_eng _ w).
  destruct (fetchNextBatch_await_fields w2) as (Hq & Ho & Hc & Hst & Ht & Hf & Hb & Hsto & Htr).
  destruct (reanchor_fields (fetchNextBatch_await w2))
    as (Hq' & Ho' & Hc' & Hst' & Ht' & Hf' & Hb' & Hsto' & Htr').
  unfold emitted. cbn [call eng store trace].
  rewrite Hq', Ho', Hc', Hst', Ht', Hf', Hb', Hsto', Htr'.
  rewrite Hq, Ho, Hc, Hst, Ht, Hf, Hb, Hsto, Htr.
  subst w2 logs. cbn [on_eng eng store trace queue offset emittedCount status
    totalLogs isFetching batchSize set_queue set_emittedCount set_offset].
  split_and!; try done.
  rewrite logs_of_app. cbn. by rewrite app_nil_r.
Qed.

(** C7, as amended. On an engine that is not playing, a second [seek(p)]
    right after the first leaves the cursor, the emitted count, the queue and
    the events emitted so far as the first call left them. *)
Theorem seek_twice_when_not_playing (p : num) w :
  status (eng w) <> playing ->
  offset (eng (seek p (seek p w))) = offset (eng (seek p w))
  /\ emittedCount (eng (seek p (seek p w))) = emittedCount (eng (seek p w))
  /\ emitted (seek p (seek p w)) = emitted (seek p w)
  /\ queue (eng (seek p (seek p w))) = queue (eng (seek p w)).
Proof.
  intros Hs.
  destruct ((p <? nzero) || (nunit <? p)) eqn:Hp.
  - assert (Hnoop : forall w', seek p w' = w')
      by (intros w'; unfold seek; by rewrite Hp).
    by rewrite !Hnoop.
  - destruct (seek_not_playing_fields p w Hs Hp)
      as (Ho & Hc & Hq & He & Hst & Ht & Hf & Hb & Hsto).
    destruct (seek_not_playing_fields p (seek p w))
      as (Ho' & Hc' & Hq' & He' & _); [congruence | done |].
    cbv zeta in *. rewrite Ht in Ho', Hc', Hq'. rewrite Hf, Hb, Hsto in Ho', Hq'.
    rewrite Ho', Hc', Hq', He', Ho, Hc, Hq. done.
Qed.

(** *** Resuming *)

(** In any number type, [start] on a paused engine adds [now - pausedAt] to
    [startTime]. *)
Lemma resume_shifts_startTime w :
  status (eng w) = paused ->
  startTime (eng (start w)) = startTime (eng w) + (now w - pausedAt (eng w)).
Proof.
  intros Hpaused. unfold start. rewrite Hpaused.
  unfold tick. rewrite bool_decide_eq_true_2 by done.
  match goal with |- context [tick_at ?t ?x] =>
    destruct (tick_at_spec t x) as (?&?&?&?&?&?&->&_)
  end.
  done.
Qed.

(** *** Invalid arguments *)

(** C8. [setSpeed(m)] with [m <= 0] and [seek(p)] with [p < 0] or [p > 1]
    return at their first line: the engine, the store cursor, the clock
    anchors and the callback trace are all as before, and nothing is raised. *)
Theorem invalid_arguments_are_ignored w :
  (forall m : num, (m <=? nzero) = true -> setSpeed m w = w)
  /\ (forall p : num, (p <? nzero) || (nunit <? p) = true -> seek p w = w).
Proof.
  split.
  - intros m Hm. unfold setSpeed. by rewrite Hm.
  - intros p Hp. unfold seek. by rewrite Hp.
Qed.

(** *** [stop] and the speed multiplier *)

(** C9. [stop()] empties the queue, zeroes the cursor and the emitted count
    and returns to idle, whatever the state was; it does not touch [speed]:
    after [setSpeed(m)] with a valid [m] and [stop()], [getSpeed()] is [m],
    and the playback that a later [start()] begins runs its clock at [m]. *)
Theorem stop_keeps_speed w (m : num) :
  (m <=? nzero) = false ->
  let w' := stop (setSpeed m w) in
  queue (eng w') = [] /\ offset (eng w') = 0%nat /\ emittedCount (eng w') = 0%nat
  /\ getStatus w' = idle
  /\ getSpeed w' = m
  /\ getSpeed (start w') = m
  /\ (forall t, targetTime (start w') t
                = simulationTimeStart (eng (start w'))
                  + (t - startTime (eng (start w'))) * m).
Proof.
  intros Hm w'.
  assert (Hspeed : getSpeed w' = m).
  { subst w'. unfold getSpeed, setSpeed. rewrite Hm.
    by case_bool_decide. }
  split_and!; try done.
  - unfold getSpeed in *. by rewrite start_speed.
  - intros t. unfold targetTime, targetTimeOf.
    unfold getSpeed in Hspeed. by rewrite start_speed, Hspeed.
Qed.
End Generic.

(** ** Exact arithmetic *)

Section Exact.
Local Open Scope Qc_scope.
Implicit Types (w : @World Qc) (m t : Qc).

Lemma nle_Qc (a b : Qc) : nle a b = true <-> a ≤ b.
Proof. cbn. apply Qle_bool_iff. Qed.

Lemma nle_Qc_false (a b : Qc) : nle a b = false <-> b < a.
Proof.
  rewrite <- not_true_iff_false, nle_Qc. split.
  - apply Qcnot_le_lt.
  - apply Qclt_not_le.
Qed.


(** *** C1: a whole replay *)



(** On the sample session and the clock that advances 60 ms per reading,
    every event is due from the sixth reading on. *)
Example sample_clock_is_late : late_from 6 (start Sample.fresh).
Proof.
  assert (Hstore : store (start Sample.fresh) = Sample.three)
    by (vm_compute; reflexivity).
  assert (Hclock : clock (start Sample.fresh) = Sample.clock60)
    by (vm_compute; reflexivity).
  assert (Htarget : forall t, targetTime (start Sample.fresh) t = t).
  { intros t. unfold targetTime, targetTimeOf.
    assert (simulationTimeStart (eng (start Sample.fresh)) = Qc_of_Z 0) as ->
      by (vm_compute; reflexivity).
    assert (startTime (eng (start Sample.fresh)) = Qc_of_Z 0) as ->
      by (vm_compute; reflexivity).
    assert (speed (eng (start Sample.fresh)) = 1) as ->
      by (vm_compute; reflexivity).
    rewrite Z2Qc_inj_0. cbn. ring. }
  intros k Hk. rewrite Hstore, Hclock.
  repeat constructor; rewrite Htarget; apply nle_Qc; unfold Sample.clock60;
    unfold Sample.log; cbn [timestamp]; apply (proj1 (Z2Qc_inj_le _ _)); lia.
Qed.

(** *** C2: one tick *)

Lemma tick_emits_due_events_witness :
  status (eng Sample.playing_still) = playing
  /\ emitted (tick Sample.playing_still)
     = emitted Sample.playing_still
       ++ due (simulationTimeStart (eng Sample.playing_still)
               + (now Sample.playing_still - startTime (eng Sample.playing_still))
                 * speed (eng Sample.playing_still))
            (queue (eng Sample.playing_still)).
Proof.
  assert (Hplaying : status (eng Sample.playing_still) = playing)
    by (vm_compute; reflexivity).
  destruct (tick_emits_due_events Sample.playing_still Hplaying)
    as (_ & _ & _ & _ & Hemitted & _).
  split; [exact Hplaying | exact Hemitted].
Defined.

(** *** C3: [setSpeed] while playing *)



(** *** C4: [start] from [ended] *)

(** C4, as stated, fails: on the sample session played to its end, [start()]
    leaves the cursor and the emitted count at 3 and calls [onLog] for no event;
    the engine is [ended] again. *)
Lemma start_from_ended_does_not_replay :
  status (eng Sample.finished) = ended
  /\ offset (eng (start Sample.finished)) = 3%nat
  /\ emittedCount (eng (start Sample.finished)) = 3%nat
  /\ emitted (start Sample.finished) = emitted Sample.finished
  /\ status (eng (start Sample.finished)) = ended.
Proof. split_and!; vm_compute; reflexivity. Qed.

Lemma ended_restarts_only_after_stop_witness :
  status (eng Sample.finished) = ended /\ queue (eng Sample.finished) = []
  /\ status (eng (start Sample.finished)) = ended
  /\ offset (eng (start Sample.finished)) = offset (eng Sample.finished).
Proof.
  assert (Hended : status (eng Sample.finished) = ended) by (vm_compute; reflexivity).
  assert (Hq : queue (eng Sample.finished) = []) by (vm_compute; reflexivity).
  assert (Hoff : (totalLogs (eng Sample.finished) <= offset (eng Sample.finished))%nat)
    by (vm_compute; lia).
  destruct (ended_restarts_only_after_stop Sample.finished Hended Hq Hoff)
    as [(Hstatus & Hoffset & _) _].
  split_and!; [exact Hended | exact Hq | exact Hstatus | exact Hoffset].
Defined.

(** *** C6: pause and resume *)



(** *** C7: [seek] twice *)

(** C7, as stated, fails while playing, where [seek] resumes the playback
    and runs a tick.
    - On [playing_uneven] no request is ever in flight.  The tick of the first
      [seek(0)] comes 100 ms after its re-anchoring and emits two events; the
      tick of the second comes at once and emits one: the emitted counts are 2
      and 1.
    - On [playing_still] the tick of the first [seek(0)] starts a read-ahead
      request; the second [seek(0)] finds it in flight, so its own fetch
      returns at once: the cursor is 3 after the first call and 0, with an
      empty queue, after the second. *)
Lemma seek_twice_while_playing_differs :
  let p := Qc_of_Z 0 in
  (nlt p nzero || nlt nunit p) = false
  /\ (let w := Sample.playing_uneven in
      status (eng w) = playing /\ isFetching (eng w) = false
      /\ isFetching (eng (seek p w)) = false
      /\ emittedCount (eng (seek p w)) = 2%nat
      /\ emittedCount (eng (seek p (seek p w))) = 1%nat)
  /\ (let w := Sample.playing_still in
      status (eng w) = playing /\ isFetching (eng w) = false
      /\ offset (eng (seek p w)) = 3%nat
      /\ offset (eng (seek p (seek p w))) = 0%nat
      /\ queue (eng (seek p (seek p w))) = []).
Proof. cbv zeta. split_and!; vm_compute; reflexivity. Qed.

Lemma seek_twice_when_not_playing_witness :
  status (eng (pause Sample.playing_still)) <> playing
  /\ offset (eng (seek (Qc_of_Z 0) (seek (Qc_of_Z 0) (pause Sample.playing_still))))
     = offset (eng (seek (Qc_of_Z 0) (pause Sample.playing_still))).
Proof.
  assert (Hs : status (eng (pause Sample.playing_still)) <> playing)
    by (vm_compute; discriminate).
  destruct (seek_twice_when_not_playing (Qc_of_Z 0) (pause Sample.playing_still) Hs)
    as (Hoffset & _).
  split; [exact Hs | exact Hoffset].
Defined.

(** *** C8 and C9 on the sample engine *)

Lemma invalid_arguments_are_ignored_witness :
  setSpeed (Qc_of_Z (-1)) Sample.fresh = Sample.fresh
  /\ seek (Qc_of_Z 2) Sample.fresh = Sample.fresh.
Proof.
  assert (Hm : nle (Qc_of_Z (-1)) nzero = true) by reflexivity.
  assert (Hp : nlt (Qc_of_Z 2) nzero || nlt nunit (Qc_of_Z 2) = true) by reflexivity.
  destruct (invalid_arguments_are_ignored Sample.fresh) as [Hspeed Hseek].
  split; [exact (Hspeed _ Hm) | exact (Hseek _ Hp)].
Defined.

Lemma stop_keeps_speed_witness :
  getSpeed (stop (setSpeed (Qc_of_Z 2) Sample.playing_still)) = Qc_of_Z 2
  /\ getSpeed (start (stop (setSpeed (Qc_of_Z 2) Sample.playing_still))) = Qc_of_Z 2.
Proof.
  assert (Hvalid : nle (Qc_of_Z 2) nzero = false) by reflexivity.
  destruct (stop_keeps_speed Sample.playing_still (Qc_of_Z 2) Hvalid)
    as (_ & _ & _ & _ & Hget & Hplay & _).
  split; [exact Hget | exact Hplay].
Defined.

End Exact.

(** ** binary64 *)

Section Binary64.
Local Open Scope js_scope.

End Binary64.
End ReplayFacts.

(** ** The store read *)

Module DbFacts.
Import Db.

Section Generic.
Context {num : Type} `{Number num}.
Local Open Scope js_scope.



End Generic.



End DbFacts.

(** ** The inspector buffers *)

Module InspectorFacts.
Import Inspector.

Lemma slice_from_negative {A} (n : nat) (l : list A) :
  (0 < n)%nat -> slice_from (- Z.of_nat n) l = drop (length l - n) l.
Proof.
  intros Hn. unfold slice_from.
  destruct (Z.ltb_spec (- Z.of_nat n) 0) as [_|?]; [|lia].
  f_equal. lia.
Qed.

Lemma length_slice_from_negative {A} (n : nat) (l : list A) :
  (0 < n)%nat -> (length (slice_from (- Z.of_nat n) l) <= n)%nat.
Proof.
  intros Hn. rewrite slice_from_negative by done. rewrite length_drop. lia.
Qed.

(** Keeping the last [k] of the last [k] and what came after is keeping
    the last [k] of everything. *)
Lemma last_of_last {A} (k : nat) (a b : list A) :
  drop (length (drop (length a - k) a ++ b) - k) (drop (length a - k) a ++ b)
  = drop (length (a ++ b) - k) (a ++ b).
Proof.
  destruct (decide (length a <= k)%nat) as [Hle|Hgt].
  - replace (length a - k)%nat with 0%nat by lia. done.
  - rewrite !length_app, length_drop.
    replace (length a - (length a - k) + length b - k)%nat with (length b) by lia.
    replace (length a + length b - k)%nat with ((length a - k) + length b)%nat by lia.
    rewrite <- drop_drop. f_equal.
    rewrite drop_app_le by lia. done.
Qed.

Lemma add_many (ms : list InspectorMessage) (st : AppState) :
  ms <> [] ->
  inspectorMessages (foldl (fun s m => addInspectorMessage m s) st ms)
  = drop (length (inspectorMessages st ++ ms) - 500) (inspectorMessages st ++ ms).
Proof.
  revert st. induction ms as [|m ms IH]; intros st Hne; [done|].
  cbn [foldl]. destruct ms as [|m' ms'].
  - cbn. by rewrite (slice_from_negative 500) by lia.
  - rewrite IH by done.
    cbn [addInspectorMessage inspectorMessages].
    rewrite (slice_from_negative 500) by lia.
    rewrite last_of_last. by rewrite <- app_assoc.
Qed.

(** C10. After every [addInspectorMessage] the list of the store has at most
    500 entries; the messages added since the initial (or a cleared) state are
    kept in arrival order, all of them up to 500 and the last 500 beyond; and
    the message list of the inspector panel, which starts empty, never exceeds
    500 entries whatever traffic events arrive. *)
Theorem inspector_buffers_bounded :
  (forall st m, (length (inspectorMessages (addInspectorMessage m st)) <= 500)%nat)
  /\ (forall ms,
        inspectorMessages (foldl (fun s m => addInspectorMessage m s) initial_state ms)
        = drop (length ms - 500) ms)
  /\ (forall st ms,
        inspectorMessages
          (foldl (fun s m => addInspectorMessage m s) (clearInspectorMessages st) ms)
        = drop (length ms - 500) ms)
  /\ (forall json_method selected events,
        (length (foldl (fun prev ev => on_traffic json_method selected ev prev) [] events)
         <= 500)%nat).
Proof.
  split_and!.
  - intros st m. cbn. apply (length_slice_from_negative 500). lia.
  - intros ms. destruct ms as [|m ms]; [done|]. by rewrite add_many.
  - intros st ms. destruct ms as [|m ms]; [done|]. by rewrite add_many.
  - intros json_method selected events.
    assert (Hinv : forall prev,
      (length prev <= 500)%nat ->
      (length (foldl (fun prev ev => on_traffic json_method selected ev prev) prev events)
       <= 500)%nat).
    { induction events as [|ev events IH]; intros prev Hprev; [done|].
      cbn [foldl]. apply IH. unfold on_traffic. case_bool_decide; [|done].
      rewrite length_app. cbn.
      assert (Hkept : (length (slice_from (-499) prev) <= 499)%nat)
        by (apply (length_slice_from_negative 499); lia).
      lia. }
    apply Hinv. cbn. lia.
Qed.
End InspectorFacts.

(** ** More on the replay engine *)

Module ReplayMore.
Import Replay ReplayFacts.

Section Generic.
Context {num : Type} `{Number num}.
Local Open Scope js_scope.
Implicit Types (w b : @World num) (q : list (SystemLog num)).

(** *** What a replay has emitted at any moment *)

Lemma progress_of_emissions count total q :
  progress_of (emissions count total q)
  = map (fun k => of_count k / of_count total) (seq (S count) (length q)).
Proof.
  revert count; induction q as [|log rest IH]; intros count; [done|].
  change (progress_of (emissions count total (log :: rest)))
    with (of_count (S count) / of_count total
            :: progress_of (emissions (S count) total rest)).
  by rewrite IH.
Qed.

Lemma run_at_rest steps w :
  status (eng w) <> playing -> inflight w = None -> run steps w = w.
Proof.
  intros Hs Hin. induction steps as [|s steps IH]; [done|].
  cbn. destruct s; cbn.
  - unfold tick. by rewrite bool_decide_eq_false_2.
  - unfold fetch_complete. by rewrite Hin.
Qed.

Lemma replaying_done_prefix b w :
  replaying b w ->
  exists done,
    trace w = trace b ++ emissions 0 (length (store b)) done
                ++ (if bool_decide (status (eng w) = ended)
                    then [OnStatusChange ended] else [])
    /\ done = take (emittedCount (eng w)) (store b)
    /\ emittedCount (eng w) = length done
    /\ (emittedCount (eng w) + length (queue (eng w))
        = Nat.min (offset (eng w)) (length (store b)))%nat.
Proof.
  intros Hrp. destruct (rp_trace _ _ Hrp) as (done & Htrace & Hdone & Hcount).
  exists done. split; [done|].
  assert (Hlen : (length done + length (queue (eng w))
                  = Nat.min (offset (eng w)) (length (store b)))%nat).
  { rewrite <- length_app, Hdone. apply length_take. }
  split_and!; [|done|lia].
  rewrite Hcount.
  rewrite <- (take_app_length done (queue (eng w))) at 1.
  rewrite Hdone, take_take. f_equal. lia.
Qed.

(** X1. From [start] on an idle engine and through any frames and arrivals,
    the events emitted are those of the session up to the emitted count, in
    stored order: never one skipped, repeated or out of place; and the progress
    values reported are 1/N, 2/N, ... up to that count. *)
Theorem replay_emits_in_order w steps :
  status (eng w) = idle -> isFetching (eng w) = false -> inflight w = None ->
  (0 < batchSize (eng w))%nat ->
  let w' := run steps (start w) in
  (emittedCount (eng w') <= length (store w))%nat
  /\ emitted w' = emitted w ++ take (emittedCount (eng w')) (store w)
  /\ progress_of (trace w')
     = progress_of (trace w)
       ++ map (fun k => of_count k / of_count (length (store w)))
            (seq 1 (emittedCount (eng w'))).
Proof.
  intros Hidle Hfetch Hin Hbatch w'.
  destruct (decide (store w = [])) as [Hempty|Hne].
  - subst w'. destruct (start_idle_empty w Hidle Hempty) as [Hs Htr].
    assert (Hcount : emittedCount (eng (start w)) = 0%nat).
    { unfold start, start_idle, store_getLogCount. rewrite Hidle, Hempty. done. }
    assert (Hin' : inflight (start w) = None).
    { unfold start, start_idle, store_getLogCount. rewrite Hidle, Hempty. done. }
    rewrite run_at_rest by (done || congruence).
    rewrite Hcount, Hempty. unfold emitted. rewrite Htr, logs_of_app, progress_of_app.
    cbn. by rewrite !app_nil_r.
  - destruct (start_idle_nonempty w Hidle Hfetch Hin Hne Hbatch)
      as (b & Hstart & Hrp & Hplaying & Htrace & Hstore & _).
    subst w'. rewrite Hstart.
    assert (Hrun : replaying b (run steps (tick b)))
      by (by apply replaying_run, replaying_frame).
    destruct (replaying_done_prefix _ _ Hrun) as (done & Htr & Hdone & Hcount & _).
    rewrite Hstore in *.
    assert (Hle : (emittedCount (eng (run steps (tick b))) <= length (store w))%nat).
    { rewrite Hcount, Hdone, length_take. lia. }
    split_and!; [done| |].
    + unfold emitted. rewrite Htr, Htrace, !logs_of_app, logs_of_emissions, <- Hdone.
      cbn. destruct (bool_decide _); cbn; by rewrite !app_nil_r.
    + rewrite Htr, Htrace, !progress_of_app, progress_of_emissions, <- Hcount.
      cbn. destruct (bool_decide _); cbn; by rewrite !app_nil_r.
Qed.

Lemma replaying_offset_bound b steps w :
  replaying b w -> (offset (eng w) <= length (store b))%nat ->
  (offset (eng (run steps w)) <= length (store b))%nat.
Proof.
  revert w; induction steps as [|s steps IH]; intros w Hrp Hoff; [done|].
  cbn. destruct s; cbn.
  - apply IH; [by apply replaying_frame|].
    unfold tick. case_bool_decide; [|done].
    destruct (tick_at_spec (now w) (tick_clock w)) as (?&?&?&?&?&?&->&_). done.
  - apply IH; [by apply replaying_arrival|].
    destruct (fetch_complete_facts w) as (_ & _ & _ & ->).
    pose proof (rp_inflight _ _ Hrp) as Hfl.
    destruct (inflight w) as [logs|]; [|lia].
    destruct Hfl as [_ ->]. rewrite length_take, length_drop. lia.
Qed.

Lemma tick_offset w : offset (eng (tick w)) = offset (eng w).
Proof.
  unfold tick. case_bool_decide; [|done].
  destruct (tick_at_spec (now w) (tick_clock w)) as (?&?&?&?&?&?&->&_). done.
Qed.

Lemma start_offset_bound w :
  status (eng w) = idle -> (offset (eng (start w)) <= length (store w))%nat.
Proof.
  intros Hidle. unfold start, start_idle. rewrite Hidle.
  case_bool_decide; [cbn; lia|].
  set (w1 := on_eng _ w).
  destruct (fetchNextBatch_await_fields w1) as (_ & Ho & _ & _ & _ & _ & _ & Hsto & _).
  assert (Hbound : (offset (eng (fetchNextBatch_await w1)) <= length (store w))%nat).
  { rewrite Ho. subst w1. cbn. destruct (isFetching (eng w)); cbn; [lia|].
    rewrite length_take, length_drop. lia. }
  destruct (queue (eng (fetchNextBatch_await w1))); [done|].
  by rewrite tick_offset.
Qed.

(** X2. Through a replay the cursor accounts for exactly the events emitted
    and the events buffered, and it never passes the end of the session. *)
Theorem replay_cursor_accounts w steps :
  status (eng w) = idle -> isFetching (eng w) = false -> inflight w = None ->
  store w <> [] -> (0 < batchSize (eng w))%nat ->
  let w' := run steps (start w) in
  (emittedCount (eng w') + length (queue (eng w')) = offset (eng w'))%nat
  /\ (offset (eng w') <= length (store w))%nat
  /\ totalLogs (eng w') = length (store w).
Proof.
  intros Hidle Hfetch Hin Hne Hbatch w'.
  pose proof (start_offset_bound w Hidle) as Hoff0.
  destruct (start_idle_nonempty w Hidle Hfetch Hin Hne Hbatch)
    as (b & Hstart & Hrp & Hplaying & Htrace & Hstore & _).
  subst w'. rewrite Hstart in *. rewrite <- Hstore in *.
  assert (Hrp1 : replaying b (tick b)) by (by apply replaying_frame).
  assert (Hrun : replaying b (run steps (tick b))) by (by apply replaying_run).
  pose proof (replaying_offset_bound b steps (tick b) Hrp1 Hoff0) as Hbound.
  destruct (replaying_done_prefix _ _ Hrun) as (done & _ & _ & _ & Hacc).
  split_and!; [lia | done | apply (rp_totalLogs _ _ Hrun)].
Qed.

(** *** Edges of [start] *)

(** X3. [start] on an idle engine ends at once, emitting nothing, whenever
    its first fetch brings nothing: when a read-ahead request is still in
    flight ([isFetching] set) or when the batch size is 0 -- even though the
    session has events. *)
Theorem start_without_first_batch w :
  status (eng w) = idle ->
  isFetching (eng w) = true \/ batchSize (eng w) = 0%nat ->
  status (eng (start w)) = ended
  /\ trace (start w) = trace w ++ [OnStatusChange ended]
  /\ emitted (start w) = emitted w
  /\ emittedCount (eng (start w)) = 0%nat.
Proof.
  intros Hidle Hcase.
  assert (Hgoal : status (eng (start w)) = ended
                  /\ trace (start w) = trace w ++ [OnStatusChange ended]
                  /\ emittedCount (eng (start w)) = 0%nat).
  { unfold start, start_idle. rewrite Hidle.
    case_bool_decide; [done|].
    set (w1 := on_eng _ w).
    destruct (fetchNextBatch_await_fields w1)
      as (Hq & _ & Hc & _ & _ & _ & _ & _ & Htr).
    assert (Hempty : queue (eng (fetchNextBatch_await w1)) = []).
    { rewrite Hq. subst w1. cbn. destruct Hcase as [->| ->]; [done|].
      by destruct (isFetching (eng w)). }
    rewrite Hempty. cbn. by rewrite Hc, Htr. }
  destruct Hgoal as (Hs & Htr & Hc). split_and!; [done..| |done].
  unfold emitted. rewrite Htr, logs_of_app. cbn. by rewrite app_nil_r.
Qed.

(** X4. Whatever state the engine is in, [stop()] followed by [start()] (with
    no request in flight) replays the session from its first event: when that
    replay has ended, exactly the session has been emitted again, in order. *)
Theorem stop_then_start_replays w steps :
  isFetching (eng w) = false -> inflight w = None ->
  store w <> [] -> (0 < batchSize (eng w))%nat ->
  status (eng (run steps (start (stop w)))) = ended ->
  emitted (run steps (start (stop w))) = emitted w ++ store w.
Proof.
  intros Hfetch Hin Hne Hbatch Hended.
  destruct (replay_from_idle (stop w)) as [Hsafe _]; try done.
  destruct (Hsafe steps Hended) as [-> _].
  f_equal. unfold emitted, stop, setStatus, call; cbn [trace].
  rewrite logs_of_app. cbn. by rewrite app_nil_r.
Qed.

(** *** [seek] and the status *)



Lemma tick_status w :
  status (eng w) = playing ->
  status (eng (tick w)) = playing \/ status (eng (tick w)) = ended.
Proof.
  intros Hplaying. unfold tick. rewrite bool_decide_eq_true_2 by done.
  destruct (tick_at_spec (now w) (tick_clock w))
    as (st & ? & ? & ? & ? & ? & -> & Hcase & _).
  cbn. destruct Hcase as [(-> & _)|(-> & _)]; auto.
Qed.

(** X7. [seek] with a position in range keeps the status of an engine that
    is not playing, and leaves an engine that was playing either playing or
    ended: it pauses only for the time of the call. *)
Theorem seek_resumes_if_playing (p : num) w :
  (p <? nzero) || (nunit <? p) = false ->
  (status (eng w) <> playing -> status (eng (seek p w)) = status (eng w))
  /\ (status (eng w) = playing ->
      status (eng (seek p w)) = playing \/ status (eng (seek p w)) = ended).
Proof.
  intros Hp. split.
  - intros Hs. by destruct (seek_not_playing_fields p w Hs Hp) as (_&_&_&_&->&_).
  - intros Hplaying. unfold seek. rewrite Hp.
    rewrite bool_decide_eq_true_2 by done. cbv zeta.
    set (w2 := on_eng _ (pause w)).
    set (w5 := call _ _).
    assert (Hpaused : status (eng w5) = paused).
    { subst w5. cbn [call eng].
      destruct (reanchor_fields (fetchNextBatch_await w2)) as (_&_&_&->&_).
      destruct (fetchNextBatch_await_fields w2) as (_&_&_&->&_).
      subst w2. cbn. unfold pause. by rewrite bool_decide_eq_true_2. }
    unfold start. rewrite Hpaused. by apply tick_status.
Qed.

(** *** [pause] *)

(** X8. [pause] discards nothing: the queue, the cursor, the emitted count,
    the anchors, the speed and the callbacks made to [onLog] are as before;
    the engine is not playing afterwards, and a second [pause] changes
    nothing at all. *)
Theorem pause_keeps_everything w :
  queue (eng (pause w)) = queue (eng w)
  /\ offset (eng (pause w)) = offset (eng w)
  /\ emittedCount (eng (pause w)) = emittedCount (eng w)
  /\ startTime (eng (pause w)) = startTime (eng w)
  /\ simulationTimeStart (eng (pause w)) = simulationTimeStart (eng w)
  /\ speed (eng (pause w)) = speed (eng w)
  /\ emitted (pause w) = emitted w
  /\ status (eng (pause w)) <> playing
  /\ pause (pause w) = pause w.
Proof.
  unfold pause. case_bool_decide as Hs.
  - unfold emitted. cbn -[logs_of]. rewrite bool_decide_eq_false_2 by done.
    split_and!; try done.
    rewrite logs_of_app. cbn. by rewrite app_nil_r.
  - rewrite bool_decide_eq_false_2 by done. done.
Qed.

(** *** Ticks *)

Lemma due_later (T1 T2 : num) q :
  (forall log, log ∈ q -> (timestamp log <=? T1) = true ->
               (timestamp log <=? T2) = true) ->
  due T2 q = due T1 q ++ due T2 (drop (length (due T1 q)) q).
Proof.
  induction q as [|log rest IH]; intros Hmono; [done|].
  cbn. destruct (timestamp log <=? T1) eqn:H1.
  - rewrite (Hmono log) by (done || apply list_elem_of_here).
    cbn. f_equal. apply IH. intros x Hx. apply Hmono. by apply list_elem_of_further.
  - done.
Qed.

Lemma tick_playing_fields w :
  status (eng w) = playing ->
  let d := due (targetTime w (now w)) (queue (eng w)) in
  emitted (tick w) = emitted w ++ d
  /\ queue (eng (tick w)) = drop (length d) (queue (eng w))
  /\ emittedCount (eng (tick w)) = (emittedCount (eng w) + length d)%nat
  /\ reads (tick w) = S (reads w)
  /\ clock (tick w) = clock w
  /\ (forall t, targetTime (tick w) t = targetTime w t).
Proof.
  intros Hplaying d. unfold tick. rewrite bool_decide_eq_true_2 by done.
  destruct (tick_at_spec (now w) (tick_clock w))
    as (st & raf & fetching & infl & fr & tail & -> & Hend & _).
  change (targetTime (tick_clock w) (now w)) with (targetTime w (now w)).
  change (queue (eng (tick_clock w))) with (queue (eng w)).
  fold d. unfold emitted. cbn -[logs_of].
  split_and!; try done.
  rewrite !logs_of_app, logs_of_emissions.
  destruct Hend as [(_ & -> & _)|(_ & -> & _)]; cbn; by rewrite app_nil_r.
Qed.

Lemma seek_not_playing_trace (p : num) w :
  status (eng w) <> playing -> (p <? nzero) || (nunit <? p) = false ->
  trace (seek p w) = trace w ++ [OnProgress p].
Proof.
  intros Hs Hp. unfold seek. rewrite Hp.
  rewrite bool_decide_eq_false_2 by done. rewrite pause_not_playing by done.
  cbv zeta. cbn [call trace].
  set (w2 := on_eng _ w).
  destruct (reanchor_fields (fetchNextBatch_await w2)) as (_&_&_&_&_&_&_&_&->).
  by destruct (fetchNextBatch_await_fields w2) as (_&_&_&_&_&_&_&_&->).
Qed.
End Generic.

Section Exact.
Local Open Scope Qc_scope.
Implicit Types (w : @World Qc) (p m t : Qc).

Lemma floor_count (n : nat) : floor (of_count n : Qc) = Z.of_nat n.
Proof. cbn. apply Qfloor_Z. Qed.

(** X6. On an engine that is not playing and has no request in flight,
    [seek(p)] with [0 <= p <= 1] puts the emitted count at
    [floor(totalLogs * p)], which is never beyond [totalLogs] (0 for [p = 0],
    [totalLogs] for [p = 1]); it buffers the batch of the store that begins
    there, moves the cursor behind that batch, and reports [p] as progress. *)
Theorem seek_positions_within_session p w :
  0 ≤ p -> p ≤ 1 ->
  status (eng w) <> playing -> isFetching (eng w) = false ->
  let target := Z.to_nat (floor (nmul (of_count (totalLogs (eng w))) p)) in
  (target <= totalLogs (eng w))%nat
  /\ emittedCount (eng (seek p w)) = target
  /\ queue (eng (seek p w)) = take (batchSize (eng w)) (drop target (store w))
  /\ offset (eng (seek p w)) = (target + length (queue (eng (seek p w))))%nat
  /\ last_progress (seek p w) = Some p
  /\ (p = 0 -> target = 0%nat)
  /\ (p = 1 -> target = totalLogs (eng w)).
Proof.
  intros H0 H1 Hs Hf target.
  assert (Hp : nlt p nzero || nlt nunit p = false).
  { cbn. apply orb_false_iff. split; apply negb_false_iff, Qle_bool_iff; done. }
  destruct (seek_not_playing_fields p w Hs Hp) as (Ho & Hc & Hq & _).
  cbv zeta in *. rewrite Hf in *. fold target in Ho, Hc, Hq.
  assert (Hbound : (target <= totalLogs (eng w))%nat).
  { subst target.
    enough (floor (nmul (of_count (totalLogs (eng w))) p)
            <= Z.of_nat (totalLogs (eng w)))%Z by lia.
    etrans; [|apply Z.eq_le_incl, (floor_count (totalLogs (eng w)))].
    change (Qfloor (this (Qcmult (Qc_of_Z (Z.of_nat (totalLogs (eng w)))) p))
            <= Qfloor (this (Qc_of_Z (Z.of_nat (totalLogs (eng w))))))%Z.
    apply Qfloor_resp_le.
    change (Qcmult (Qc_of_Z (Z.of_nat (totalLogs (eng w)))) p
            ≤ Qc_of_Z (Z.of_nat (totalLogs (eng w)))).
    rewrite <- (Qcmult_1_r (Qc_of_Z _)) at 2.
    apply Qcmult_le_mono_nonneg_l; [|done].
    rewrite <- Z2Qc_inj_0. apply (proj1 (Z2Qc_inj_le _ _)). lia. }
  split_and!; try done.
  - by rewrite Ho, Hq.
  - unfold last_progress. rewrite seek_not_playing_trace by done.
    rewrite progress_of_app. cbn. apply last_snoc.
  - intros ->. subst target.
    change (nmul ?a ?b) with (Qcmult a b). by rewrite Qcmult_0_r.
  - intros ->. subst target.
    change (nmul ?a ?b) with (Qcmult a b). rewrite Qcmult_1_r.
    by rewrite floor_count, Nat2Z.id.
Qed.

Lemma seek_positions_within_session_witness :
  emittedCount (eng (seek (Q2Qc (1 # 2)) MoreSamples.paused60)) = 1%nat
  /\ offset (eng (seek (Q2Qc (1 # 2)) MoreSamples.paused60)) = 3%nat.
Proof.
  assert (H0 : 0 ≤ Q2Qc (1 # 2)) by (vm_compute; discriminate).
  assert (H1 : Q2Qc (1 # 2) ≤ 1) by (vm_compute; discriminate).
  assert (Hs : status (eng MoreSamples.paused60) <> playing)
    by (vm_compute; discriminate).
  assert (Hf : isFetching (eng MoreSamples.paused60) = false)
    by (vm_compute; reflexivity).
  destruct (seek_positions_within_session _ _ H0 H1 Hs Hf) as (_ & Hc & Hq & Ho & _).
  split.
  - rewrite Hc. vm_compute. reflexivity.
  - rewrite Ho, Hq. vm_compute. reflexivity.
Defined.

(** X10. While the engine is not playing, [setSpeed(m)] with [m > 0] reads no
    clock and moves no anchor: only [speed] changes.  So the simulated time
    elapsed since the anchor is not preserved, as it is while playing, but
    rescaled from the old speed to [m]. *)
Theorem setSpeed_while_not_playing m w :
  status (eng w) <> playing -> 0 < m ->
  speed (eng (setSpeed m w)) = m
  /\ startTime (eng (setSpeed m w)) = startTime (eng w)
  /\ simulationTimeStart (eng (setSpeed m w)) = simulationTimeStart (eng w)
  /\ reads (setSpeed m w) = reads w
  /\ queue (eng (setSpeed m w)) = queue (eng w)
  /\ trace (setSpeed m w) = trace w
  /\ (forall t,
        (targetTime (setSpeed m w) t - simulationTimeStart (eng w)) * speed (eng w)
        = (targetTime w t - simulationTimeStart (eng w)) * m).
Proof.
  intros Hs Hm.
  assert (Hnle : nle m nzero = false) by (by apply nle_Qc_false).
  unfold setSpeed. rewrite Hnle. rewrite bool_decide_eq_false_2 by done.
  split_and!; try done.
  intros t. unfold targetTime, targetTimeOf. cbn. ring.
Qed.

Lemma setSpeed_while_not_playing_witness :
  speed (eng (setSpeed (Qc_of_Z 2) MoreSamples.paused60)) = Qc_of_Z 2
  /\ startTime (eng (setSpeed (Qc_of_Z 2) MoreSamples.paused60))
     = startTime (eng MoreSamples.paused60).
Proof.
  assert (Hs : status (eng MoreSamples.paused60) <> playing)
    by (vm_compute; discriminate).
  assert (Hm : 0 < Qc_of_Z 2) by reflexivity.
  destruct (setSpeed_while_not_playing (Qc_of_Z 2) MoreSamples.paused60 Hs Hm)
    as (H1 & H2 & _).
  split; [exact H1 | exact H2].
Defined.

Lemma replay_emits_in_order_witness :
  emitted (run (MoreSamples.frames 5) (start Sample.fresh))
  = emitted Sample.fresh
    ++ take (emittedCount (eng (run (MoreSamples.frames 5) (start Sample.fresh))))
         (store Sample.fresh).
Proof.
  assert (H1 : status (eng Sample.fresh) = idle) by (vm_compute; reflexivity).
  assert (H2 : isFetching (eng Sample.fresh) = false) by (vm_compute; reflexivity).
  assert (H3 : inflight Sample.fresh = None) by (vm_compute; reflexivity).
  assert (H4 : (0 < batchSize (eng Sample.fresh))%nat) by (vm_compute; lia).
  destruct (replay_emits_in_order Sample.fresh (MoreSamples.frames 5) H1 H2 H3 H4)
    as (_ & He & _).
  exact He.
Defined.

Lemma replay_cursor_accounts_witness :
  (offset (eng (run (MoreSamples.frames 2) (start Sample.fresh)))
   <= length (store Sample.fresh))%nat.
Proof.
  assert (H1 : status (eng Sample.fresh) = idle) by (vm_compute; reflexivity).
  assert (H2 : isFetching (eng Sample.fresh) = false) by (vm_compute; reflexivity).
  assert (H3 : inflight Sample.fresh = None) by (vm_compute; reflexivity).
  assert (H4 : store Sample.fresh <> []) by (vm_compute; discriminate).
  assert (H5 : (0 < batchSize (eng Sample.fresh))%nat) by (vm_compute; lia).
  destruct (replay_cursor_accounts Sample.fresh (MoreSamples.frames 2)
              H1 H2 H3 H4 H5) as (_ & Ho & _).
  exact Ho.
Defined.

Lemma start_without_first_batch_witness :
  store MoreSamples.stopped_early <> []
  /\ status (eng (start MoreSamples.stopped_early)) = ended
  /\ emitted (start MoreSamples.stopped_early) = emitted MoreSamples.stopped_early.
Proof.
  assert (H1 : status (eng MoreSamples.stopped_early) = idle)
    by (vm_compute; reflexivity).
  assert (H2 : isFetching (eng MoreSamples.stopped_early) = true)
    by (vm_compute; reflexivity).
  destruct (start_without_first_batch MoreSamples.stopped_early H1 (or_introl H2))
    as (Hs & _ & He & _).
  split; [vm_compute; discriminate | split; [exact Hs | exact He]].
Defined.

Lemma stop_then_start_replays_witness :
  emitted (run (MoreSamples.frames 5) (start (stop MoreSamples.paused60)))
  = emitted MoreSamples.paused60 ++ store MoreSamples.paused60.
Proof.
  assert (H1 : isFetching (eng MoreSamples.paused60) = false)
    by (vm_compute; reflexivity).
  assert (H2 : inflight MoreSamples.paused60 = None) by (vm_compute; reflexivity).
  assert (H3 : store MoreSamples.paused60 <> []) by (vm_compute; discriminate).
  assert (H4 : (0 < batchSize (eng MoreSamples.paused60))%nat)
    by (vm_compute; lia).
  assert (H5 : status (eng (run (MoreSamples.frames 5)
                              (start (stop MoreSamples.paused60)))) = ended)
    by (vm_compute; reflexivity).
  exact (stop_then_start_replays MoreSamples.paused60 (MoreSamples.frames 5)
           H1 H2 H3 H4 H5).
Defined.


Lemma seek_resumes_if_playing_witness :
  status (eng (seek (Q2Qc (1 # 2)) Sample.playing_still)) = playing
  \/ status (eng (seek (Q2Qc (1 # 2)) Sample.playing_still)) = ended.
Proof.
  assert (Hp : nlt (Q2Qc (1 # 2)) nzero || nlt nunit (Q2Qc (1 # 2)) = false)
    by (vm_compute; reflexivity).
  assert (Hs : status (eng Sample.playing_still) = playing)
    by (vm_compute; reflexivity).
  destruct (seek_resumes_if_playing (Q2Qc (1 # 2)) Sample.playing_still Hp)
    as [_ Hplay].
  exact (Hplay Hs).
Defined.

(** X9. The scheduler is self-correcting: if a frame is missed, nothing is
    lost.  With a clock that does not go back and a speed that is not
    negative, two ticks in a row emit together exactly what the second tick
    alone would have emitted at its reading of the clock, and leave the same
    queue and count. *)
Theorem missed_frame_changes_nothing w :
  status (eng w) = playing -> 0 ≤ speed (eng w) ->
  clock w (reads w) ≤ clock w (S (reads w)) ->
  status (eng (tick w)) = playing ->
  emitted (tick (tick w)) = emitted (tick (tick_clock w))
  /\ queue (eng (tick (tick w))) = queue (eng (tick (tick_clock w)))
  /\ emittedCount (eng (tick (tick w))) = emittedCount (eng (tick (tick_clock w))).
Proof.
  intros Hplaying Hspeed Hclock Hstill.
  destruct (tick_playing_fields w Hplaying) as (He1 & Hq1 & Hc1 & Hr1 & Hk1 & Ht1).
  destruct (tick_playing_fields (tick w) Hstill) as (He2 & Hq2 & Hc2 & _).
  destruct (tick_playing_fields (tick_clock w) Hplaying) as (He & Hq & Hc & _).
  cbv zeta in *.
  rewrite He2, Hq2, Hc2, He, Hq, Hc, He1, Hq1, Hc1.
  unfold now in *. rewrite Hr1, Hk1, Ht1.
  change (targetTime (tick_clock w) (clock (tick_clock w) (reads (tick_clock w))))
    with (targetTime w (clock w (S (reads w)))).
  change (queue (eng (tick_clock w))) with (queue (eng w)).
  change (emitted (tick_clock w)) with (emitted w).
  change (emittedCount (eng (tick_clock w))) with (emittedCount (eng w)).
  set (T1 := targetTime w (clock w (reads w))).
  set (T2 := targetTime w (clock w (S (reads w)))).
  assert (Hle : T1 ≤ T2).
  { subst T1 T2. unfold targetTime, targetTimeOf. cbn.
    apply Qcplus_le_compat; [apply Qcle_refl|].
    apply Qcmult_le_compat_r; [|done].
    unfold Qcminus. apply Qcplus_le_compat; [done|apply Qcle_refl]. }
  assert (Hdue : due T2 (queue (eng w))
                 = due T1 (queue (eng w))
                   ++ due T2 (drop (length (due T1 (queue (eng w)))) (queue (eng w)))).
  { apply due_later. intros log _ H1. apply nle_Qc. apply nle_Qc in H1.
    by eapply Qcle_trans. }
  rewrite Hdue, length_app, drop_drop, <- app_assoc.
  split_and!; [done | done | lia].
Qed.

Lemma missed_frame_changes_nothing_witness :
  status (eng Sample.playing_still) = playing
  /\ emitted (tick (tick Sample.playing_still))
     = emitted (tick (tick_clock Sample.playing_still)).
Proof.
  assert (H1 : status (eng Sample.playing_still) = playing) by (vm_compute; reflexivity).
  assert (H2 : 0 ≤ speed (eng Sample.playing_still)) by (vm_compute; discriminate).
  assert (H3 : clock Sample.playing_still (reads Sample.playing_still)
               ≤ clock Sample.playing_still (S (reads Sample.playing_still)))
    by (vm_compute; discriminate).
  assert (H4 : status (eng (tick Sample.playing_still)) = playing)
    by (vm_compute; reflexivity).
  destruct (missed_frame_changes_nothing Sample.playing_still H1 H2 H3 H4) as (He & _).
  split; [exact H1 | exact He].
Defined.
End Exact.
End ReplayMore.

(** ** The database service layer *)

Module DbMore.
Import Db DbOps.

Section Generic.
Context {num : Type} `{Number num}.
Implicit Types (tbl : Table (num := num)) (db : Database (num := num)).

Lemma in_session_spec sessionId (r : SystemLog num) :
  in_session sessionId r = true <-> session_id r = sessionId.
Proof. unfold in_session. by rewrite bool_decide_eq_true. Qed.

(** X11. A page read returns [min(limit, count - offset)] rows, where
    [count] is what [getLogCount] returns for the session; every row belongs
    to the session and carries a parsed payload; and a read at or beyond the
    count returns nothing. *)
Theorem getLogsBySession_window tbl sessionId limit offset result :
  getLogsBySession tbl sessionId limit offset result ->
  length result = (limit `min` (getLogCount tbl sessionId - offset))%nat
  /\ Forall (fun r => session_id r = sessionId /\ exists v, payload r = PValue v)
       result
  /\ ((getLogCount tbl sessionId <= offset)%nat -> result = []).
Proof.
  intros (sorted & [Hperm _] & ->).
  assert (Hlen : length (map parse_payload (limit_offset limit offset sorted))
                 = (limit `min` (getLogCount tbl sessionId - offset))%nat).
  { rewrite length_map. unfold limit_offset, getLogCount.
    rewrite length_take, length_drop. by rewrite (Permutation_length Hperm). }
  split_and!.
  - done.
  - apply Forall_fmap, Forall_forall. intros r Hr. unfold limit_offset in Hr.
    apply list_elem_of_In in Hr.
    assert (Hin : r ∈ sorted).
    { eapply subseteq_drop, subseteq_take, Hr. }
    rewrite <- Hperm in Hin. apply list_elem_of_filter in Hin as [Hs _].
    apply in_session_spec in Hs. cbn. split; [done|].
    destruct (payload r); eauto.
  - intros Hle. apply nil_length_inv. rewrite Hlen. lia.
Qed.

(** X12. A read from offset 0 with a limit that covers the session returns
    the session's rows, each once, payloads parsed (in some timestamp
    order). *)
Theorem getLogsBySession_whole_session tbl sessionId limit result :
  getLogsBySession tbl sessionId limit 0 result ->
  (getLogCount tbl sessionId <= limit)%nat ->
  result ≡ₚ map parse_payload (filter (fun r => in_session sessionId r = true) tbl).
Proof.
  intros (sorted & [Hperm _] & ->) Hlimit.
  unfold limit_offset. rewrite drop_0.
  rewrite take_ge by (rewrite <- (Permutation_length Hperm); exact Hlimit).
  by rewrite Hperm.
Qed.

(** X13. [insertLog] adds one row to the count of the log's session and none
    to any other; it does not touch [sessions], so the [log_count] recorded
    for a session that has ended falls one behind. *)
Theorem insertLog_counts JSON_stringify fresh_id (log : SystemLog num) db :
  (forall s,
     getLogCount (system_logs (insertLog JSON_stringify fresh_id log db)) s
     = (getLogCount (system_logs db) s
        + (if bool_decide (session_id log = s) then 1 else 0))%nat)
  /\ sessions (insertLog JSON_stringify fresh_id log db) = sessions db
  /\ (counts_agree db ->
      forall se, se ∈ sessions db -> ended_at se <> None ->
        sid se = session_id log ->
        getLogCount (system_logs (insertLog JSON_stringify fresh_id log db)) (sid se)
        = S (log_count se)).
Proof.
  assert (Hcount : forall s,
     getLogCount (system_logs (insertLog JSON_stringify fresh_id log db)) s
     = (getLogCount (system_logs db) s
        + (if bool_decide (session_id log = s) then 1 else 0))%nat).
  { intros s. unfold getLogCount, insertLog, Table. cbn [system_logs].
    rewrite list.filter_app, length_app. f_equal.
    rewrite filter_cons, filter_nil. cbn [session_id].
    unfold in_session; cbn [session_id].
    case_bool_decide as Hs.
    - by rewrite decide_True by done.
    - by rewrite decide_False by done. }
  split_and!; [done..|].
  intros Hagree se Hse Hended Hsid.
  rewrite Hcount, (Hagree se Hse Hended).
  rewrite bool_decide_eq_true_2 by done. lia.
Qed.

Lemma filter_other_session sessionId s (rows : list (SystemLog num)) :
  s <> sessionId ->
  filter (fun r => in_session s r = true)
    (filter (fun r => session_id r <> sessionId) rows)
  = filter (fun r => in_session s r = true) rows.
Proof.
  intros Hs. rewrite list_filter_filter. apply list_filter_iff.
  intros r. rewrite in_session_spec.
  split; [by intros [? _]|]. intros Hr. split; [done|congruence].
Qed.

(** X14. After [deleteSession(id)] the session has no rows (its count is 0
    and every read of it is empty) and no entry in [sessions]; the rows of
    every other session, hence every read of them, and the other entries of
    [sessions] are as before. *)
Theorem deleteSession_removes sessionId db :
  getLogCount (system_logs (deleteSession sessionId db)) sessionId = 0%nat
  /\ (forall limit offset result,
        getLogsBySession (system_logs (deleteSession sessionId db))
          sessionId limit offset result -> result = [])
  /\ (forall s limit offset result, s <> sessionId ->
        getLogsBySession (system_logs (deleteSession sessionId db)) s limit offset result
        <-> getLogsBySession (system_logs db) s limit offset result)
  /\ (forall se, se ∈ sessions (deleteSession sessionId db)
                 <-> se ∈ sessions db /\ sid se <> sessionId).
Proof.
  assert (Hnone : filter (fun r => in_session sessionId r = true)
                    (system_logs (deleteSession sessionId db)) = []).
  { unfold deleteSession, Table. cbn [system_logs]. rewrite list_filter_filter.
    apply elem_of_nil_inv. intros r Hr.
    apply list_elem_of_filter in Hr as [[Hs Hns] _].
    apply in_session_spec in Hs. done. }
  split_and!.
  - unfold getLogCount. by rewrite Hnone.
  - intros limit offset result (sorted & [Hperm _] & ->).
    rewrite Hnone in Hperm. apply Permutation_nil in Hperm. subst sorted.
    unfold limit_offset. by destruct limit, offset.
  - intros s limit offset result Hs. unfold getLogsBySession, deleteSession, Table.
    cbn [system_logs]. by rewrite filter_other_session.
  - intros se. unfold deleteSession. cbn [sessions].
    rewrite list_elem_of_filter. split; intros [? ?]; done.
Qed.

(** [endSession(id)] stamps the entries of that id with the current
    time and with the count that [getLogCount] returns at that moment; it
    changes no other entry and no row. *)
Lemma endSession_records_count date_now sessionId db se :
  se ∈ sessions (endSession date_now sessionId db) ->
  (sid se = sessionId ->
     ended_at se = Some date_now
     /\ log_count se = getLogCount (system_logs db) sessionId)
  /\ (sid se <> sessionId -> se ∈ sessions db)
  /\ system_logs (endSession date_now sessionId db) = system_logs db
  /\ length (sessions (endSession date_now sessionId db)) = length (sessions db).
Proof.
  unfold endSession. cbn [sessions system_logs]. intros Hse.
  apply list_elem_of_fmap in Hse as (s0 & -> & Hs0).
  rewrite length_fmap. case_bool_decide as Hid; cbn [sid ended_at log_count].
  - split_and!; done.
  - split_and!; done.
Qed.

Lemma endSession_agrees date_now sessionId db :
  counts_agree db -> counts_agree (endSession date_now sessionId db).
Proof.
  intros Hagree se Hse Hended.
  destruct (endSession_records_count _ _ _ _ Hse) as (Hsame & Hother & Hlogs & _).
  rewrite Hlogs. destruct (decide (sid se = sessionId)) as [Hid|Hid].
  - destruct (Hsame Hid) as [_ ->]. by rewrite Hid.
  - by apply Hagree; [apply Hother|].
Qed.

Lemma deleteSession_agrees sessionId db :
  counts_agree db -> counts_agree (deleteSession sessionId db).
Proof.
  intros Hagree se Hse Hended.
  unfold deleteSession in *. cbn [sessions system_logs] in *.
  apply list_elem_of_filter in Hse as [Hid Hse].
  unfold getLogCount, Table. rewrite filter_other_session by done.
  by apply Hagree.
Qed.

Lemma clearAllLogs_agrees db : counts_agree (clearAllLogs db).
Proof.
  intros se Hse _. unfold clearAllLogs in *. cbn [sessions system_logs] in *.
  apply list_elem_of_fmap in Hse as (s0 & -> & _). done.
Qed.

(** X15. That the [log_count] of every ended session is the number of its
    rows is kept by [endSession], by [deleteSession] and by [clearAllLogs]
    (which establishes it, whatever held before). *)
Theorem log_count_stays_right db :
  counts_agree db ->
  (forall date_now sessionId, counts_agree (endSession date_now sessionId db))
  /\ (forall sessionId, counts_agree (deleteSession sessionId db))
  /\ counts_agree (clearAllLogs db)
  /\ (forall db', counts_agree (clearAllLogs db')).
Proof.
  intros Hagree. split_and!.
  - intros. by apply endSession_agrees.
  - intros. by apply deleteSession_agrees.
  - apply clearAllLogs_agrees.
  - apply clearAllLogs_agrees.
Qed.
End Generic.

Section Exact.
Implicit Types (tbl : Table (num := Qc)).

#[local] Instance by_timestamp_dec (a b : SystemLog Qc) : Decision (by_timestamp a b).
Proof. unfold by_timestamp. apply _. Defined.

#[local] Instance by_timestamp_total : Total (by_timestamp (num := Qc)).
Proof.
  intros a b. unfold by_timestamp. cbn. rewrite !Qle_bool_iff.
  destruct (Qlt_le_dec (timestamp a) (timestamp b)) as [Hlt|Hle]; [left|by right].
  by apply Qlt_le_weak.
Qed.

#[local] Instance by_timestamp_trans : Transitive (by_timestamp (num := Qc)).
Proof.
  intros a b c. unfold by_timestamp. cbn. rewrite !Qle_bool_iff.
  apply Qle_trans.
Qed.

(** X16. In exact arithmetic every read has an answer: whatever the table,
    the session, the limit and the offset, some result satisfies the query. *)
Theorem getLogsBySession_answers tbl sessionId limit offset :
  exists result, getLogsBySession tbl sessionId limit offset result.
Proof.
  set (rows := filter (fun r => in_session sessionId r = true) tbl).
  exists (map parse_payload (limit_offset limit offset (sorting.merge_sort by_timestamp rows))).
  exists (sorting.merge_sort by_timestamp rows). split; [|done]. split.
  - symmetry. apply sorting.merge_sort_Permutation.
  - apply (sorting.StronglySorted_merge_sort by_timestamp).
Qed.

Lemma tied_read :
  getLogsBySession Sample.tied "s1" 1000 0 (map parse_payload Sample.tied).
Proof.
  exists Sample.tied. split; [|reflexivity]. split; [done|].
  repeat constructor; reflexivity.
Qed.

Lemma getLogsBySession_window_witness :
  length (map parse_payload Sample.tied) = 2%nat.
Proof.
  destruct (getLogsBySession_window Sample.tied "s1" 1000 0 _ tied_read)
    as (Hlen & _).
  rewrite Hlen. reflexivity.
Defined.

Lemma getLogsBySession_whole_session_witness :
  map parse_payload Sample.tied
  ≡ₚ map parse_payload (filter (fun r => in_session "s1" r = true) Sample.tied).
Proof.
  assert (Hcount : (getLogCount Sample.tied "s1" <= 1000)%nat)
    by (vm_compute; lia).
  exact (getLogsBySession_whole_session Sample.tied "s1" 1000 _ tied_read Hcount).
Defined.

Lemma recorded_agrees : counts_agree MoreSamples.recorded.
Proof.
  intros se Hse _. apply list_elem_of_singleton in Hse as ->. reflexivity.
Qed.

Lemma insertLog_counts_witness :
  getLogCount
    (system_logs (insertLog (fun _ => "{}") 3 (Sample.log 0 (Qc_of_Z 7))
                    MoreSamples.recorded)) "s1" = 3%nat.
Proof.
  destruct (insertLog_counts (fun _ => "{}") 3 (Sample.log 0 (Qc_of_Z 7))
              MoreSamples.recorded) as (_ & _ & Hstale).
  assert (Hse : DbOps.mkSession "s1" (Qc_of_Z 0) (Some (Qc_of_Z 9)) None 2 None
                ∈ sessions MoreSamples.recorded) by apply list_elem_of_here.
  exact (Hstale recorded_agrees _ Hse ltac:(discriminate) eq_refl).
Defined.

Lemma log_count_stays_right_witness :
  counts_agree (deleteSession "s2" MoreSamples.recorded).
Proof.
  destruct (log_count_stays_right MoreSamples.recorded recorded_agrees)
    as (_ & Hdel & _).
  exact (Hdel "s2").
Defined.
End Exact.
End DbMore.

(** ** The inspector buffers and the panel's filter *)

Module InspectorMore.
Import Inspector Panel InspectorFacts.

(** X17. [addInspectorMessage] puts the new message last and touches nothing
    but the message list; below 500 entries the list just grows, and from 500
    entries on it is the last 499 of the old list followed by the new
    message: only the oldest entries are dropped. *)
Theorem addInspectorMessage_newest_last m st :
  list.last (inspectorMessages (addInspectorMessage m st)) = Some m
  /\ ((length (inspectorMessages st) < 500)%nat ->
      inspectorMessages (addInspectorMessage m st) = inspectorMessages st ++ [m])
  /\ ((500 <= length (inspectorMessages st))%nat ->
      inspectorMessages (addInspectorMessage m st)
      = drop (length (inspectorMessages st) - 499) (inspectorMessages st) ++ [m])
  /\ sidebarOpen (addInspectorMessage m st) = sidebarOpen st
  /\ activeView (addInspectorMessage m st) = activeView st
  /\ selectedServer (addInspectorMessage m st) = selectedServer st
  /\ inspectorActive (addInspectorMessage m st) = inspectorActive st.
Proof.
  cbn [addInspectorMessage inspectorMessages sidebarOpen activeView
       selectedServer inspectorActive].
  rewrite (slice_from_negative 500) by lia. rewrite length_app. cbn [length].
  assert (Hshape : drop (length (inspectorMessages st) + 1 - 500)
                     (inspectorMessages st ++ [m])
                   = drop (length (inspectorMessages st) + 1 - 500)
                       (inspectorMessages st) ++ [m])
    by (apply drop_app_le; lia).
  rewrite Hshape. split_and!; try done.
  - apply last_snoc.
  - intros Hlt. by replace (length (inspectorMessages st) + 1 - 500)%nat
      with 0%nat by lia.
  - intros Hge. do 2 f_equal. lia.
Qed.

(** X18. The message list of the panel is exactly the last 500 messages of
    the selected server, in arrival order: events of other servers leave it
    as it is, and nothing but the oldest messages is ever dropped. *)
Theorem panel_shows_last_500 json_method selected events :
  let mine := filter (fun ev => Some (serverId ev) = selected) events in
  foldl (fun prev ev => on_traffic json_method selected ev prev) [] events
  = drop (length mine - 500) (map (to_message json_method) mine).
Proof.
  cbv zeta. induction events as [|ev events IH] using rev_ind; [done|].
  rewrite foldl_snoc, IH. clear IH.
  set (mine := filter _ events).
  rewrite list.filter_app, filter_cons, filter_nil.
  unfold on_traffic. case_bool_decide as Hsel.
  - rewrite decide_True by done.
    rewrite (slice_from_negative 499) by lia.
    rewrite fmap_app, length_app. cbn [fmap list_fmap length].
    change (mkTrafficMessage _ _ _ _ _) with (to_message json_method ev).
    rewrite length_drop, length_fmap.
    rewrite drop_drop.
    rewrite drop_app_le by (rewrite length_fmap; lia).
    subst mine. do 2 f_equal. lia.
  - rewrite decide_False by done. by rewrite app_nil_r.
Qed.

Section Filter.
Variable toLowerCase : string -> string.
Variable includes : string -> string -> bool.
Variable trim : string -> string.

Lemma shown_direction filter searchQuery msg :
  shown toLowerCase includes trim filter searchQuery msg
  = match filter with
    | all => true
    | incoming => bool_decide (tm_direction msg = INCOMING)
    | outgoing => bool_decide (tm_direction msg = OUTGOING)
    end && shown toLowerCase includes trim all searchQuery msg.
Proof.
  unfold Panel.shown. destruct filter, (tm_direction msg); reflexivity.
Qed.

(** X19. The panel's filter: with direction "all" and a blank query every
    message is shown; the direction filter only narrows what "all" shows for
    the same query, to the INCOMING messages or to the OUTGOING ones; so a
    STDERR message is shown under "all" or not at all.  The order of the
    messages is kept. *)
Theorem filteredMessages_narrows searchQuery messages :
  (trim searchQuery = "" -> filteredMessages toLowerCase includes trim all searchQuery messages = messages)
  /\ (forall msg, In msg (filteredMessages toLowerCase includes trim incoming searchQuery messages)
        <-> In msg (filteredMessages toLowerCase includes trim all searchQuery messages)
            /\ tm_direction msg = INCOMING)
  /\ (forall msg, In msg (filteredMessages toLowerCase includes trim outgoing searchQuery messages)
        <-> In msg (filteredMessages toLowerCase includes trim all searchQuery messages)
            /\ tm_direction msg = OUTGOING)
  /\ (forall filter msg, In msg (filteredMessages toLowerCase includes trim filter searchQuery messages) ->
        tm_direction msg = STDERR -> filter = all)
  /\ (forall filter, sublist (filteredMessages toLowerCase includes trim filter searchQuery messages) messages).
Proof.
  split_and!.
  - intros Hblank. unfold Panel.filteredMessages.
    apply forallb_filter_id, forallb_forall. intros msg _.
    unfold Panel.shown. cbn. by rewrite Hblank.
  - intros msg. unfold Panel.filteredMessages. rewrite !filter_In.
    rewrite (shown_direction incoming), andb_true_iff, bool_decide_eq_true.
    tauto.
  - intros msg. unfold Panel.filteredMessages. rewrite !filter_In.
    rewrite (shown_direction outgoing), andb_true_iff, bool_decide_eq_true.
    tauto.
  - intros filter msg Hin Hstderr. unfold Panel.filteredMessages in Hin.
    apply filter_In in Hin as [_ Hshown].
    rewrite shown_direction, Hstderr in Hshown. by destruct filter.
  - intros filter. unfold Panel.filteredMessages.
    induction messages as [|m ms IH]; [done|]. cbn.
    destruct (shown toLowerCase includes trim filter searchQuery m); [by apply sublist_skip|by apply sublist_cons].
Qed.
End Filter.

Lemma filteredMessages_narrows_witness :
  filteredMessages (fun s => s) (fun _ _ => true) (fun s => s) all ""
    [to_message (fun _ => None) (MoreSamples.event STDERR "m1")]
  = [to_message (fun _ => None) (MoreSamples.event STDERR "m1")].
Proof.
  destruct (filteredMessages_narrows (fun s => s) (fun _ _ => true) (fun s => s) ""
              [to_message (fun _ => None) (MoreSamples.event STDERR "m1")])
    as (Hblank & _).
  exact (Hblank eq_refl).
Defined.
End InspectorMore.

(** ** The expansion set of the log viewer *)

Module ViewerFacts.
Import Viewer.

(** X20. [toggleExpanded(id)] flips the membership of [id] and of nothing
    else; it keeps the elements distinct; and toggling the same id twice gives
    back a set with the same elements. *)
Theorem toggleExpanded_flips id prev :
  (id ∈ toggleExpanded id prev <-> id ∉ prev)
  /\ (forall x, x <> id -> (x ∈ toggleExpanded id prev <-> x ∈ prev))
  /\ (forall x, x ∈ toggleExpanded id (toggleExpanded id prev) <-> x ∈ prev)
  /\ (NoDup prev -> NoDup (toggleExpanded id prev)).
Proof.
  assert (Hmem : forall y s x,
    x ∈ toggleExpanded y s <-> (x <> y /\ x ∈ s) \/ (x = y /\ y ∉ s)).
  { intros y s x. unfold toggleExpanded. cbv zeta. case_bool_decide as Hy.
    - rewrite list_elem_of_filter. intuition congruence.
    - rewrite elem_of_app, list_elem_of_singleton.
      destruct (decide (x = y)) as [->|Hx]; intuition congruence. }
  split_and!.
  - rewrite Hmem. intuition congruence.
  - intros x Hx. rewrite Hmem. intuition congruence.
  - intros x. rewrite !Hmem.
    destruct (decide (x = id)) as [->|Hx], (decide (id ∈ prev));
      intuition congruence.
  - intros Hnodup. unfold toggleExpanded. cbv zeta. case_bool_decide as Hy.
    + by apply list.NoDup_filter.
    + apply list.NoDup_app. split_and!; [done| |apply NoDup_singleton].
      intros x Hx Hx'. apply list_elem_of_singleton in Hx' as ->. done.
Qed.

Lemma toggleExpanded_flips_witness :
  NoDup (toggleExpanded 7 [3; 7; 9]%Z).
Proof.
  destruct (toggleExpanded_flips 7 [3; 7; 9]%Z) as (_ & _ & _ & Hnodup).
  apply Hnodup. apply (bool_decide_unpack _). vm_compute. exact I.
Defined.
End ViewerFacts.

(** ** The string helpers *)

Module UtilsFacts.
Import Utils.

Lemma slice_prefix {A} (n : Z) (l : list A) :
  (0 <= n <= Z.of_nat (length l))%Z -> slice 0 n l = take (Z.to_nat n) l.
Proof.
  intros Hn. unfold slice. cbn [Z.ltb Z.compare].
  destruct (Z.ltb_spec n 0) as [?|_]; [lia|].
  rewrite (Z.min_l 0) by lia. rewrite (Z.min_l n) by lia.
  cbn [Z.to_nat]. rewrite drop_0. f_equal. lia.
Qed.

(** X21. For [maxLength >= 3], [truncate] never returns more than
    [maxLength] code units: a string that fits is returned as it is, and a
    longer one is cut to its first [maxLength - 3] code units followed by
    three dots, [maxLength] code units in all. *)
Theorem truncate_fits str maxLength :
  (3 <= maxLength)%Z ->
  (Z.of_nat (length (truncate str maxLength)) <= maxLength)%Z
  /\ ((Z.of_nat (length str) <= maxLength)%Z -> truncate str maxLength = str)
  /\ ((maxLength < Z.of_nat (length str))%Z ->
      truncate str maxLength = take (Z.to_nat (maxLength - 3)) str ++ dots
      /\ Z.of_nat (length (truncate str maxLength)) = maxLength).
Proof.
  intros Hmax. unfold truncate.
  destruct (Z.leb_spec (Z.of_nat (length str)) maxLength) as [Hfit|Hlong].
  - split_and!; [done|done|lia].
  - rewrite slice_prefix by lia.
    assert (Hlen : Z.of_nat (length (take (Z.to_nat (maxLength - 3)) str ++ dots))
                   = maxLength).
    { rewrite length_app, length_take. cbn [dots length]. lia. }
    split_and!; [lia|lia|done].
Qed.

Lemma truncate_fits_witness :
  Z.of_nat (length (truncate MoreSamples.secret 6)) = 6%Z.
Proof.
  destruct (truncate_fits MoreSamples.secret 6 ltac:(lia)) as (_ & _ & Hlong).
  destruct Hlong as [_ Hlen]; [vm_compute; reflexivity|].
  exact Hlen.
Defined.

(** X22. For [maxLength < 3] a string that does not fit is not cut to
    [maxLength]: the result ends in three dots and is longer than
    [maxLength]. *)
Theorem truncate_overflows str maxLength :
  (maxLength < 3)%Z -> (maxLength < Z.of_nat (length str))%Z ->
  (exists kept, truncate str maxLength = kept ++ dots)
  /\ (maxLength < Z.of_nat (length (truncate str maxLength)))%Z.
Proof.
  intros Hmax Hlong. unfold truncate.
  destruct (Z.leb_spec (Z.of_nat (length str)) maxLength) as [?|_]; [lia|].
  split; [by eexists|].
  rewrite length_app. cbn [dots length]. lia.
Qed.

Lemma truncate_overflows_witness :
  (2 < Z.of_nat (length (truncate MoreSamples.secret 2)))%Z.
Proof.
  destruct (truncate_overflows MoreSamples.secret 2 ltac:(lia))
    as (_ & Hlen); [vm_compute; reflexivity|].
  exact Hlen.
Defined.

(** X23. [maskSensitive] returns eight bullets for every value of at most 8
    code units, and for a longer one its first four code units, four bullets
    and its last four code units: the result has 8 or 12 code units, it is
    the same for all short values, and for long values it depends only on
    the first and the last four code units. *)
Theorem maskSensitive_shape value :
  ((length value <= 8)%nat -> maskSensitive value = bullets 8)
  /\ ((8 < length value)%nat ->
      maskSensitive value
      = take 4 value ++ bullets 4 ++ drop (length value - 4) value)
  /\ (length (maskSensitive value) = 8%nat \/ length (maskSensitive value) = 12%nat)
  /\ (forall other, (8 < length value)%nat -> (8 < length other)%nat ->
        take 4 value = take 4 other ->
        drop (length value - 4) value = drop (length other - 4) other ->
        maskSensitive value = maskSensitive other).
Proof.
  assert (Hlong : forall v, (8 < length v)%nat ->
    maskSensitive v = take 4 v ++ bullets 4 ++ drop (length v - 4) v).
  { intros v Hv. unfold maskSensitive.
    destruct (Nat.leb_spec (length v) 8) as [?|_]; [lia|].
    rewrite slice_prefix by lia.
    by rewrite (InspectorFacts.slice_from_negative 4) by lia. }
  split_and!.
  - intros Hshort. unfold maskSensitive.
    by destruct (Nat.leb_spec (length value) 8) as [_|?]; [|lia].
  - apply Hlong.
  - destruct (decide (length value <= 8)%nat) as [Hshort|Hl].
    + left. unfold maskSensitive.
      by destruct (Nat.leb_spec (length value) 8) as [_|?]; [|lia].
    + right. rewrite Hlong by lia.
      rewrite !length_app, length_take, length_drop.
      unfold bullets. rewrite length_replicate. lia.
  - intros other Hv Ho Hhead Htail. rewrite !Hlong by done. by rewrite Hhead, Htail.
Qed.

Lemma maskSensitive_shape_witness :
  maskSensitive MoreSamples.secret
  = take 4 MoreSamples.secret ++ bullets 4 ++ drop 7 MoreSamples.secret.
Proof.
  destruct (maskSensitive_shape MoreSamples.secret) as (_ & Hlong & _).
  apply Hlong. vm_compute. lia.
Defined.
End UtilsFacts.
